(** * A single-domain link crawler (seed_url.py)

    Shallow embedding of the three functions of [seed_url.py]:
    the link filter [is_valid_link], the page worker [process_page] and the
    batch loop of [crawl_all_parallel], with the properties of the crawl
    state that the design document states about them.

    - Python [str] is [string]; a Python [set] of URLs is a [gset string].
    - A call returns, raises an instance of [Exception], or raises a
      [BaseException] that is not one: the three outcomes of the monad
      [Py]; [try/except Exception] and the [with] statement are combinators
      on it.
    - The standard-library functions the code calls ([str.strip],
      [str.lower], [urllib.parse.urlparse]) are the fields of the class
      [PyLib]; [cpython] is an executable instance for ASCII text.
    - The order in which [list(to_visit)] enumerates a set and the order in
      which [as_completed] yields the futures are not determined by the
      program: one loop iteration is a relation [round], of which
      [loop_body] is the executable part. *)

From stdpp Require Import base decidable option list sets gmap strings.
From Stdlib Require Import Ascii ZArith NArith Lia.
From Stdlib Require DecimalString DecimalN DecimalPos.

Local Open Scope string_scope.
Local Open Scope nat_scope.
Set Warnings "-clear-no-such-hyp".

(** ** Exceptions *)

(** An instance of [Exception]; [msg] is what [str(e)] returns. *)
Inductive PyExc : Type :=
  | Exception (msg : string).

Definition str_of_exc (e : PyExc) : string :=
  match e with Exception msg => msg end.

(** A [BaseException] that is not an [Exception]: [KeyboardInterrupt],
    [SystemExit], [GeneratorExit], [asyncio.CancelledError]; [name] is the
    name of its class. *)
Inductive PyBaseExc : Type :=
  | BaseException (name : string).

(** A Python computation: it returns a value, raises an instance of
    [Exception], or raises a [BaseException] that is not one. *)
Inductive Py (A : Type) : Type :=
  | Return (a : A)
  | Raise (e : PyExc)
  | RaiseBase (b : PyBaseExc).
Arguments Return {A} a.
Arguments Raise {A} e.
Arguments RaiseBase {A} b.

#[global] Instance Py_ret : MRet Py := λ A a, Return a.
#[global] Instance Py_bind : MBind Py := λ A B f m,
  match m with
  | Return a => f a
  | Raise e => Raise e
  | RaiseBase b => RaiseBase b
  end.

(** [try: m  except Exception as e: h e]: the handler takes the instances
    of [Exception]; any other [BaseException] goes through. *)
Definition try_except {A} (m : Py A) (h : PyExc → Py A) : Py A :=
  match m with
  | Return a => Return a
  | Raise e => h e
  | RaiseBase b => RaiseBase b
  end.

(** What a statement raises: an instance of [Exception], or a
    [BaseException] that is not one. *)
Inductive PyRaised : Type :=
  | Exc (e : PyExc)
  | Base (b : PyBaseExc).

(** [raise x] *)
Definition raise {A} (x : PyRaised) : Py A :=
  match x with
  | Exc e => Raise e
  | Base b => RaiseBase b
  end.

(** [with cm as _: body], for a context manager whose [__exit__] does not
    swallow exceptions: [__exit__] runs on every way out of the body, and
    an exception it raises replaces the outcome of the body. *)
Definition with_context {A} (enter exit : Py unit) (body : Py A) : Py A :=
  match enter with
  | Raise e => Raise e
  | RaiseBase b => RaiseBase b
  | Return _ =>
      match body, exit with
      | _, Raise e' => Raise e'
      | _, RaiseBase b' => RaiseBase b'
      | Return a, Return _ => Return a
      | Raise e, Return _ => Raise e
      | RaiseBase b, Return _ => RaiseBase b
      end
  end.

(** ** Strings *)

(** [s.startswith(p)] *)
Definition startswith (s p : string) : bool := String.prefix p s.

(** [s.endswith(suffix)] *)
Definition endswith (s suffix : string) : bool :=
  let n := String.length s in
  let k := String.length suffix in
  if Nat.leb k n then String.eqb (String.substring (n - k) k s) suffix
  else false.

(** [sub in s] *)
Fixpoint contains (sub s : string) : bool :=
  startswith s sub ||
  match s with
  | EmptyString => false
  | String _ s' => contains sub s'
  end.

(** [s.split(sep)[0]]: the text before the first occurrence of [sep]. *)
Fixpoint split_head (sep : ascii) (s : string) : string :=
  match s with
  | EmptyString => EmptyString
  | String c s' => if Ascii.eqb c sep then EmptyString
                   else String c (split_head sep s')
  end.

(** [x in xs] for a list of strings *)
Definition str_in (x : string) (xs : list string) : bool :=
  existsb (String.eqb x) xs.

(** ** Configuration constants of the module *)

Definition CONCURRENT_WORKERS : nat := 16.
Definition BASE_DOMAIN : string := "yc.go.kr".
Definition START_URL : string := "https://yc.go.kr/main.do".
Definition MAX_PAGES : nat := Z.to_nat 80000.
Definition CHECK_INTERVAL : nat := 500.

Definition IGNORED_DOMAINS : list string :=
  [ "facebook.com"; "instagram.com"; "youtube.com"; "twitter.com";
    "naver.com"; "daum.net"; "kakao.com"; "google.com"; "gov.kr"; "mail." ].

Definition EXCLUDED_EXTENSIONS : list string :=
  [ ".jpg"; ".jpeg"; ".png"; ".gif"; ".bmp"; ".svg";
    ".zip"; ".rar"; ".tar"; ".gz"; ".7z";
    ".pdf"; ".hwp"; ".doc"; ".docx"; ".xls"; ".xlsx";
    ".ppt"; ".pptx"; ".mp4"; ".avi"; ".mp3"; ".wav";
    ".exe"; ".apk"; ".dll"; ".git"; ".download" ].

(** ** The standard library, as the code sees it *)

(** The six fields of [urllib.parse.ParseResult]. *)
Record ParseResult : Type := mkParseResult {
  scheme : string;
  netloc : string;
  path : string;
  params : string;
  query : string;
  fragment : string
}.

Class PyLib : Type := {
  str_strip : string → string;          (* s.strip() *)
  str_lower : string → string;          (* s.lower() *)
  urlparse : string → Py ParseResult    (* may raise ValueError *)
}.

(** ** [is_valid_link] *)

Section seed_url.
Context {lib : PyLib}.

Definition is_valid_link (href : string) : Py bool :=
  if String.eqb href "" then mret false
  else
    let href := str_lower (str_strip href) in
    if existsb (startswith href) ["mailto:"; "javascript:"; "tel:"]
    then mret false
    else
      parsed ← urlparse href;
      let full_check_target := path parsed +:+ query parsed in
      if existsb (endswith full_check_target) EXCLUDED_EXTENSIONS
      then mret false
      else if negb (String.eqb (scheme parsed) "")
              && negb (str_in (scheme parsed) ["http"; "https"])
      then mret false
      else if existsb (λ domain, contains domain href) IGNORED_DOMAINS
      then mret false
      else mret (contains BASE_DOMAIN (netloc parsed)).

(** ** [process_page] *)

(** What the browser does during one call of [process_page]: the outcome
    of each Playwright call the function makes, in the order it makes
    them.  [pw_enter] and [pw_exit] are the two ends of
    [with sync_playwright() as pw]. *)
Record Session : Type := mkSession {
  pw_enter : Py unit;
  chromium_launch : Py unit;
  new_page : Py unit;
  goto : string → Py unit;
  wait_for_load_state : Py unit;
  eval_on_selector_all : Py (list string);
  page_close : Py unit;
  browser_close : Py unit;
  pw_exit : Py unit
}.

(** The triple [(url, new_links, error)] a worker hands back. *)
Definition Result : Type := string * gset string * option string.

Definition res_url (r : Result) : string := r.1.1.
Definition res_links (r : Result) : gset string := r.1.2.
Definition res_error (r : Result) : option string := r.2.

(** The [for href in hrefs] loop, started with the set built so far. *)
Fixpoint collect_valid_links (hrefs : list string) (valid_links : gset string)
  : Py (gset string) :=
  match hrefs with
  | [] => mret valid_links
  | href :: hrefs' =>
      ok ← is_valid_link href;
      collect_valid_links hrefs'
        (if ok : bool then valid_links ∪ {[ split_head "#" href ]}
         else valid_links)
  end.

(** The body of the [with] block. *)
Definition page_links (pw : Session) (url : string) : Py (gset string) :=
  _ ← chromium_launch pw;
  _ ← new_page pw;
  _ ← goto pw url;
  _ ← wait_for_load_state pw;
  hrefs ← eval_on_selector_all pw;
  _ ← page_close pw;
  _ ← browser_close pw;
  collect_valid_links hrefs ∅.

Definition process_page (pw : Session) (url : string) : Py Result :=
  try_except
    (with_context (pw_enter pw) (pw_exit pw)
       (valid_links ← page_links pw url;
        mret (url, valid_links, None)))
    (λ e, mret (url, ∅, Some (str_of_exc e))).

(** ** [crawl_all_parallel] *)

(** The module constants the loop reads.  [default_config] holds the values
    the module assigns; the design document treats them as configuration
    and states a scenario with other values. *)
Record Config : Type := mkConfig {
  start_url : string;
  workers : nat;
  max_pages : nat;
  check_interval : nat
}.

Definition default_config : Config :=
  {| start_url := START_URL;
     workers := CONCURRENT_WORKERS;
     max_pages := MAX_PAGES;
     check_interval := CHECK_INTERVAL |}.

(** The local variables of [crawl_all_parallel] that live across
    iterations. *)
Record State : Type := mkState {
  to_visit : gset string;
  visited : gset string;
  all_links : gset string;
  failed_urls : gset string;
  last_check : nat
}.

#[global] Instance State_eq_dec : EqDecision State.
Proof. solve_decision. Defined.

Definition init (cfg : Config) : State :=
  {| to_visit := {[ start_url cfg ]};
     visited := ∅;
     all_links := ∅;
     failed_urls := ∅;
     last_check := 0 |}.

(** Truth value of [error] in [if error:]: [None] and the empty string
    are false. *)
Definition truthy (error : option string) : bool :=
  match error with
  | None => false
  | Some msg => negb (String.eqb msg "")
  end.

(** One iteration of [for url, new_links, error in results]. *)
Definition merge_result (st : State) (r : Result) : State :=
  let '(url, new_links, error) := r in
  let visited' := visited st ∪ {[ url ]} in
  if truthy error then
    {| to_visit := to_visit st;
       visited := visited';
       all_links := all_links st;
       failed_urls := failed_urls st ∪ {[ url ]};
       last_check := last_check st |}
  else
    let filtered_links := new_links ∖ visited' ∖ to_visit st in
    {| to_visit := to_visit st ∪ filtered_links;
       visited := visited';
       all_links := all_links st ∪ filtered_links;
       failed_urls := failed_urls st;
       last_check := last_check st |}.

Definition merge_results (st : State) (results : list Result) : State :=
  foldl merge_result st results.

(** [to_visit and len(visited) < MAX_PAGES] *)
Definition loop_guard (cfg : Config) (st : State) : bool :=
  negb (bool_decide (to_visit st = ∅))
  && (size (visited st) <? max_pages cfg)%nat.

(** [list(to_visit)[:CONCURRENT_WORKERS]], for the order [listing] in which
    [list] enumerates the set. *)
Definition current_batch (cfg : Config) (listing : list string) : list string :=
  take (workers cfg) listing.

(** The progress report at the end of an iteration; only [last_check]
    changes. *)
Definition report (cfg : Config) (st : State) : State :=
  if (Z.of_nat (check_interval cfg)
        <=? Z.of_nat (size (visited st)) - Z.of_nat (last_check st))%Z
  then {| to_visit := to_visit st;
          visited := visited st;
          all_links := all_links st;
          failed_urls := failed_urls st;
          last_check := size (visited st) |}
  else st.

(** The body of the [while] loop, for a given enumeration of [to_visit] and
    the list [results] the executor block has filled. *)
Definition loop_body (cfg : Config) (listing : list string)
    (results : list Result) (st : State) : State :=
  let batch := current_batch cfg listing in
  let st1 := {| to_visit := to_visit st ∖ list_to_set batch;
                visited := visited st;
                all_links := all_links st;
                failed_urls := failed_urls st;
                last_check := last_check st |} in
  report cfg (merge_results st1 results).

(** [l] is a way [list(X)] may come out: every member once. *)
Definition set_listing (X : gset string) (l : list string) : Prop :=
  NoDup l ∧ list_to_set l = X.

(** The pages as they are while the crawl runs: [web url pw] when a call
    [process_page(url)] may meet the browser behaviour [pw]. *)
Definition Web : Type := string → Session → Prop.

(** [future.result()] for the future of [process_page(url)]. *)
Definition fetched (web : Web) (url : string) (r : Result) : Prop :=
  ∃ pw, web url pw ∧ process_page pw url = Return r.

(** One iteration of the [while] loop.  [done] is the batch in the order
    in which [as_completed] yields its futures. *)
Inductive round (cfg : Config) (web : Web) (st : State)
  : list string → list Result → State → Prop :=
  | round_intro listing done results :
      loop_guard cfg st = true →
      set_listing (to_visit st) listing →
      done ≡ₚ current_batch cfg listing →
      Forall2 (fetched web) done results →
      round cfg web st (current_batch cfg listing) results
            (loop_body cfg listing results st).

(** What a run has done so far: the batch and the results of every
    iteration, the latest first. *)
Definition Log : Type := list (list string * list Result).

(** The states at the head of the [while] loop, with the log of the
    iterations that led there. *)
Inductive run (cfg : Config) (web : Web) : Log → State → Prop :=
  | run_start : run cfg web [] (init cfg)
  | run_round log st batch results st' :
      run cfg web log st →
      round cfg web st batch results st' →
      run cfg web ((batch, results) :: log) st'.

(** Every URL handed to [process_page], with repetitions. *)
Definition dispatched (log : Log) : list string :=
  concat (map fst log).

(** Every link some call of [process_page] has returned. *)
Definition observed (log : Log) : gset string :=
  ⋃ (map res_links (concat (map snd log))).

(** The two files written after the loop. *)
Record Output : Type := mkOutput {
  recursive_links_json : list string;
  failed_urls_json : list string
}.

(** A complete call: the loop runs until its condition is false, then
    [list(all_links)] and [list(failed_urls)] are written out. *)
Definition crawl_all_parallel (cfg : Config) (web : Web) (out : Output) : Prop :=
  ∃ log st,
    run cfg web log st ∧ loop_guard cfg st = false ∧
    set_listing (all_links st) (recursive_links_json out) ∧
    set_listing (failed_urls st) (failed_urls_json out).

End seed_url.

(** ** An executable [PyLib] for ASCII text

    The three library functions on strings of ASCII characters, after
    CPython 3.11 ([str.strip], [str.lower], [urllib.parse.urlsplit] and
    [urlparse]).  Bytes above 127 are passed through unchanged, and a host
    in brackets is only checked for balanced brackets. *)
Module CPython.

Definition code (c : ascii) : nat := nat_of_ascii c.

(** [c.isspace()] for an ASCII character *)
Definition isspace (c : ascii) : bool :=
  let n := code c in
  (Nat.leb 9 n && Nat.leb n 13) || (Nat.leb 28 n && Nat.leb n 32).

Definition isupper (c : ascii) : bool :=
  let n := code c in Nat.leb 65 n && Nat.leb n 90.

Definition isalpha (c : ascii) : bool :=
  let n := code c in
  (Nat.leb 65 n && Nat.leb n 90) || (Nat.leb 97 n && Nat.leb n 122).

Definition isdigit (c : ascii) : bool :=
  let n := code c in Nat.leb 48 n && Nat.leb n 57.

(** Membership in [scheme_chars]: letters, digits and [+-.] *)
Definition scheme_char (c : ascii) : bool :=
  isalpha c || isdigit c
  || Ascii.eqb c "+" || Ascii.eqb c "-" || Ascii.eqb c ".".

Definition lower_char (c : ascii) : ascii :=
  if isupper c then ascii_of_nat (code c + 32) else c.

Fixpoint lower (s : string) : string :=
  match s with
  | EmptyString => EmptyString
  | String c s' => String (lower_char c) (lower s')
  end.

Fixpoint lstrip (p : ascii → bool) (s : string) : string :=
  match s with
  | EmptyString => EmptyString
  | String c s' => if p c then lstrip p s' else s
  end.

Fixpoint rstrip (p : ascii → bool) (s : string) : string :=
  match s with
  | EmptyString => EmptyString
  | String c s' =>
      match rstrip p s' with
      | EmptyString => if p c then EmptyString else String c EmptyString
      | r => String c r
      end
  end.

Definition strip (s : string) : string := rstrip isspace (lstrip isspace s).

Fixpoint remove (p : ascii → bool) (s : string) : string :=
  match s with
  | EmptyString => EmptyString
  | String c s' => if p c then remove p s' else String c (remove p s')
  end.

Fixpoint all_chars (p : ascii → bool) (s : string) : bool :=
  match s with
  | EmptyString => true
  | String c s' => p c && all_chars p s'
  end.

Definition has_char (c : ascii) (s : string) : bool :=
  negb (all_chars (λ d, negb (Ascii.eqb d c)) s).

(** [s] cut before the first character satisfying [p]: the text before it,
    and the rest starting with that character (empty when there is none). *)
Fixpoint break (p : ascii → bool) (s : string) : string * string :=
  match s with
  | EmptyString => (EmptyString, EmptyString)
  | String c s' =>
      if p c then (EmptyString, s)
      else let '(a, b) := break p s' in (String c a, b)
  end.

(** [s.split(c, 1)] when [c] occurs in [s] *)
Definition split_once (c : ascii) (s : string) : option (string * string) :=
  match break (Ascii.eqb c) s with
  | (a, String _ b) => Some (a, b)
  | (_, EmptyString) => None
  end.

Definition tail (s : string) : string :=
  match s with
  | EmptyString => EmptyString
  | String _ s' => s'
  end.

(** [_splitnetloc(url, 2)] for a [url] that starts with [//] *)
Definition splitnetloc (url : string) : string * string :=
  break (λ c, Ascii.eqb c "/" || Ascii.eqb c "?" || Ascii.eqb c "#")
        (tail (tail url)).

(** The scheme of [url], when it has one, and what follows the colon. *)
Definition split_scheme (url : string) : string * string :=
  match break (Ascii.eqb ":") url with
  | (String c0 pre, String _ rest) =>
      if isalpha c0 && all_chars scheme_char (String c0 pre)
      then (lower (String c0 pre), rest)
      else (EmptyString, url)
  | _ => (EmptyString, url)
  end.

Definition urlsplit (url0 : string) : Py (string * string * string * string * string) :=
  let url := lstrip (λ c, Nat.leb (code c) 32) url0 in
  let url := remove (λ c, Ascii.eqb c "009" || Ascii.eqb c "010" || Ascii.eqb c "013") url in
  let '(scheme, url) := split_scheme url in
  '(netloc, url) ←
    (if startswith url "//" then
       let '(netloc, rest) := splitnetloc url in
       if xorb (has_char "[" netloc) (has_char "]" netloc)
       then Raise (Exception "Invalid IPv6 URL")
       else mret (netloc, rest)
     else mret (EmptyString, url));
  let '(url, fragment) :=
    match split_once "#" url with
    | Some (a, b) => (a, b)
    | None => (url, EmptyString)
    end in
  let '(url, query) :=
    match split_once "?" url with
    | Some (a, b) => (a, b)
    | None => (url, EmptyString)
    end in
  mret (scheme, netloc, url, query, fragment).

Definition uses_params : list string :=
  [ ""; "ftp"; "hdl"; "prospero"; "http"; "imap"; "https"; "shttp"; "rtsp";
    "rtspu"; "sip"; "sips"; "mms"; "sftp"; "tel" ].

(** What comes before the last path segment of [url] (up to and with the
    last slash), and that segment. *)
Fixpoint last_segment (url : string) : string * string :=
  match url with
  | EmptyString => (EmptyString, EmptyString)
  | String c url' =>
      if has_char "/" url
      then let '(a, b) := last_segment url' in (String c a, b)
      else (EmptyString, url)
  end.

(** [_splitparams(url)] *)
Definition splitparams (url : string) : string * string :=
  let '(front, segment) := last_segment url in
  match split_once ";" segment with
  | Some (a, b) => (front +:+ a, b)
  | None => (url, EmptyString)
  end.

Definition urlparse (url : string) : Py ParseResult :=
  '(scheme, netloc, url, query, fragment) ← urlsplit url;
  let '(url, params) :=
    if str_in scheme uses_params && has_char ";" url
    then splitparams url
    else (url, EmptyString) in
  mret (mkParseResult scheme netloc url params query fragment).

End CPython.

#[global] Instance cpython : PyLib :=
  {| str_strip := CPython.strip;
     str_lower := CPython.lower;
     urlparse := CPython.urlparse |}.

(** ** Example sites *)

(** A page that loads and whose anchors have the given [hrefs]. *)
Definition page_with (hrefs : list string) : Session :=
  {| pw_enter := Return ();
     chromium_launch := Return ();
     new_page := Return ();
     goto := λ _, Return ();
     wait_for_load_state := Return ();
     eval_on_selector_all := Return hrefs;
     page_close := Return ();
     browser_close := Return ();
     pw_exit := Return () |}.

(** A page whose navigation fails with the message [msg]. *)
Definition page_failing (msg : string) : Session :=
  {| pw_enter := Return ();
     chromium_launch := Return ();
     new_page := Return ();
     goto := λ _, Raise (Exception msg);
     wait_for_load_state := Return ();
     eval_on_selector_all := Return [];
     page_close := Return ();
     browser_close := Return ();
     pw_exit := Return () |}.

(** A page whose navigation is cut short by a [BaseException] of the class
    [name] that is not an [Exception]. *)
Definition page_aborting (name : string) : Session :=
  {| pw_enter := Return ();
     chromium_launch := Return ();
     new_page := Return ();
     goto := λ _, RaiseBase (BaseException name);
     wait_for_load_state := Return ();
     eval_on_selector_all := Return [];
     page_close := Return ();
     browser_close := Return ();
     pw_exit := Return () |}.

(** A site that answers every call for a URL in the same way. *)
Definition site (pages : string → Session) : Web :=
  λ url pw, pw = pages url.

(** What [process_page(url)] returns when the browser behaves as [pw];
    nothing when the call raises. *)
Definition page_result {lib : PyLib} (pw : Session) (url : string)
  : option Result :=
  match process_page pw url with
  | Return r => Some r
  | Raise _ | RaiseBase _ => None
  end.

(** Every state one iteration may lead to from [st] on such a site: one
    for each enumeration of [to_visit] and each completion order of the
    batch; none when the loop condition is false, and none for a batch in
    which a call raises, which ends the crawl. *)
Definition successors {lib : PyLib} (cfg : Config) (pages : string → Session)
    (st : State) : list State :=
  if loop_guard cfg st then
    listing ← permutations (elements (to_visit st));
    done ← permutations (current_batch cfg listing);
    match mapM (λ url, page_result (pages url) url) done with
    | Some results => [loop_body cfg listing results st]
    | None => []
    end
  else [].

(** The states at the head of the loop after [n] iterations. *)
Fixpoint states_after {lib : PyLib} (cfg : Config) (pages : string → Session)
    (n : nat) : list State :=
  match n with
  | 0 => [init cfg]
  | S n' => states_after cfg pages n' ≫= successors cfg pages
  end.

(** The four pages of the scenario of the design document: the seed links
    to [A] and [B], [A] links to [B] and [C], [B] cannot be loaded, [C] has
    no link. *)
Module Scenario.

Definition S : string := START_URL.
Definition A : string := "https://yc.go.kr/a.do".
Definition B : string := "https://yc.go.kr/b.do".
Definition C : string := "https://yc.go.kr/c.do".

Definition timeout_msg : string := "Timeout 7000ms exceeded.".

Definition pages (url : string) : Session :=
  if String.eqb url S then
    page_with [A; "https://yc.go.kr/b.do#top"; "mailto:webmaster@yc.go.kr"]
  else if String.eqb url A then page_with [B; C; "https://yc.go.kr/c.do#menu"]
  else if String.eqb url B then page_failing timeout_msg
  else page_with [].

Definition web : Web := site pages.

(** Worker count 2, cap 100. *)
Definition config : Config :=
  {| start_url := S; workers := 2; max_pages := 100;
     check_interval := CHECK_INTERVAL |}.

(** What the four calls return. *)
Definition rS : Result := (S, {[ A; B ]}, None).
Definition rA : Result := (A, {[ B; C ]}, None).
Definition rB : Result := (B, ∅, Some timeout_msg).
Definition rC : Result := (C, ∅, None).

(** After the first iteration. *)
Definition st1 : State := mkState {[ A; B ]} {[ S ]} {[ A; B ]} ∅ 0.

(** After the second iteration, when the result of [A] is merged before
    the result of [B], and when it is merged after it. *)
Definition st2 : State := mkState {[ B; C ]} {[ S; A; B ]} {[ A; B; C ]} {[ B ]} 0.
Definition st2' : State := mkState {[ C ]} {[ S; A; B ]} {[ A; B; C ]} {[ B ]} 0.

(** After the third iteration. *)
Definition final : State := mkState ∅ {[ S; A; B; C ]} {[ A; B; C ]} {[ B ]} 0.

(** The log of the run through [st2], latest iteration first. *)
Definition log2 : Log := [ ([A; B], [rA; rB]); ([S], [rS]) ].
Definition log3 : Log := ([B; C], [rB; rC]) :: log2.

(** What a state after [n] iterations has to look like. *)
Definition expected (n : nat) (st : State) : bool :=
  if n =? 3 then bool_decide (st = final) else loop_guard config st.

End Scenario.

(** A site of two pages where the second links back to the seed. *)
Module Backlink.

Definition pages (url : string) : Session :=
  if String.eqb url START_URL then page_with [Scenario.A]
  else page_with [START_URL].

Definition web : Web := site pages.

Definition r1 : Result := (START_URL, {[ Scenario.A ]}, None).
Definition r2 : Result := (Scenario.A, {[ START_URL ]}, None).

Definition st1 : State := mkState {[ Scenario.A ]} {[ START_URL ]} {[ Scenario.A ]} ∅ 0.
Definition final : State :=
  mkState ∅ {[ START_URL; Scenario.A ]} {[ Scenario.A ]} ∅ 0.

Definition log : Log := [ ([Scenario.A], [r2]); ([START_URL], [r1]) ].

End Backlink.

(** A site without end: the seed links to pages 1 to 16, and page [i]
    links to page [i + 16]. *)
Module Chain.

Definition stem : string := "https://yc.go.kr/p/".

(** The URL of page [i]: the stem followed by [i] in decimal. *)
Definition page (i : nat) : string :=
  stem +:+ DecimalString.NilZero.string_of_uint (N.to_uint (N.of_nat i)).

Fixpoint drop_prefix (p s : string) : option string :=
  match p, s with
  | EmptyString, _ => Some s
  | String a p', String b s' => if Ascii.eqb a b then drop_prefix p' s' else None
  | String _ _, EmptyString => None
  end.

(** The number of the page a URL names. *)
Definition page_index (url : string) : option nat :=
  rest ← drop_prefix stem url;
  d ← DecimalString.NilZero.uint_of_string rest;
  Some (N.to_nat (N.of_uint d)).

Definition pages (url : string) : Session :=
  if String.eqb url START_URL then page_with (page <$> seq 1 16)
  else match page_index url with
       | Some i => page_with [page (i + 16)]
       | None => page_with []
       end.

Definition web : Web := site pages.

(** The characters of the URLs of this site, and a class of characters
    that contains those of their paths. *)
Definition url_char (c : ascii) : bool :=
  CPython.has_char c stem || CPython.isdigit c.

Definition path_char (c : ascii) : bool :=
  negb (Ascii.eqb "#" c) && negb (Ascii.eqb "?" c) && negb (Ascii.eqb c ";")
  && negb (Ascii.eqb c ".").

(** The pages numbered [a], [a + 1], ..., [a + len - 1]. *)
Definition block (a len : nat) : list string := page <$> seq a len.

(** What the call for page [i] returns. *)
Definition result (i : nat) : Result :=
  (page i, {[ page (i + 16) ]}, None).

(** The frontier and the visited set after the first iteration and [k]
    more. *)
Definition after (k : nat) (st : State) : Prop :=
  to_visit st = list_to_set (block (16 * k + 1) 16) ∧
  visited st = {[ START_URL ]} ∪ list_to_set (block 1 (16 * k)).

End Chain.

(** The measure that grows with every iteration: each URL counts twice
    once it is visited, minus one while it is still (or again) in the
    frontier. *)
Definition progress (st : State) : nat :=
  2 * size (visited st) - size (to_visit st ∩ visited st).

(** ** Vocabulary of the statements about pages and logs *)

(** [link] is an href of the page that the filter accepts, with its
    fragment cut off. *)
Definition kept {lib : PyLib} (hrefs : list string) (link : string) : Prop :=
  ∃ href, href ∈ hrefs ∧ is_valid_link href = Return true ∧
          link = split_head "#" href.

(** A session in which every browser call returns, and the page has the
    anchors [hrefs]. *)
Definition loads (pw : Session) (url : string) (hrefs : list string) : Prop :=
  pw_enter pw = Return () ∧ chromium_launch pw = Return () ∧
  new_page pw = Return () ∧ goto pw url = Return () ∧
  wait_for_load_state pw = Return () ∧
  eval_on_selector_all pw = Return hrefs ∧
  page_close pw = Return () ∧ browser_close pw = Return () ∧
  pw_exit pw = Return ().

(** The body of the [with] block stops at the first call that raises:
    [body_raises pw url x] when that call raises [x].  The calls are, in
    the order of the source, [launch], [new_page], [goto],
    [wait_for_load_state], [eval_on_selector_all], [page.close],
    [browser.close] and the loop over the hrefs. *)
Inductive body_raises {lib : PyLib} (pw : Session) (url : string)
    (x : PyRaised) : Prop :=
  | raises_launch :
      chromium_launch pw = raise x → body_raises pw url x
  | raises_new_page :
      chromium_launch pw = Return () → new_page pw = raise x →
      body_raises pw url x
  | raises_goto :
      chromium_launch pw = Return () → new_page pw = Return () →
      goto pw url = raise x → body_raises pw url x
  | raises_wait :
      chromium_launch pw = Return () → new_page pw = Return () →
      goto pw url = Return () → wait_for_load_state pw = raise x →
      body_raises pw url x
  | raises_eval :
      chromium_launch pw = Return () → new_page pw = Return () →
      goto pw url = Return () → wait_for_load_state pw = Return () →
      eval_on_selector_all pw = raise x → body_raises pw url x
  | raises_page_close hrefs :
      chromium_launch pw = Return () → new_page pw = Return () →
      goto pw url = Return () → wait_for_load_state pw = Return () →
      eval_on_selector_all pw = Return hrefs → page_close pw = raise x →
      body_raises pw url x
  | raises_browser_close hrefs :
      chromium_launch pw = Return () → new_page pw = Return () →
      goto pw url = Return () → wait_for_load_state pw = Return () →
      eval_on_selector_all pw = Return hrefs → page_close pw = Return () →
      browser_close pw = raise x → body_raises pw url x
  | raises_filter hrefs :
      chromium_launch pw = Return () → new_page pw = Return () →
      goto pw url = Return () → wait_for_load_state pw = Return () →
      eval_on_selector_all pw = Return hrefs → page_close pw = Return () →
      browser_close pw = Return () →
      collect_valid_links hrefs ∅ = raise x → body_raises pw url x.

(** What comes out of the [with] statement when it does not complete:
    what entering it raises; or what leaving it raises, which replaces
    whatever the body has done; or what the body raises. *)
Definition leaves {lib : PyLib} (pw : Session) (url : string)
    (x : PyRaised) : Prop :=
  pw_enter pw = raise x ∨
  (pw_enter pw = Return () ∧ pw_exit pw = raise x) ∨
  (pw_enter pw = Return () ∧ pw_exit pw = Return () ∧ body_raises pw url x).

(** How often [url] occurs in a list of dispatched URLs. *)
Definition times (url : string) (l : list string) : nat :=
  length (filter (λ u, u = url) l).

(** A site no page of which can be reached. *)
Module Offline.

Definition msg : string := "net::ERR_NAME_NOT_RESOLVED".

Definition pages (url : string) : Session := page_failing msg.

Definition web : Web := site pages.

Definition r : Result := (START_URL, ∅, Some msg).

Definition final : State := mkState ∅ {[ START_URL ]} ∅ {[ START_URL ]} 0.

Definition log : Log := [ ([START_URL], [r]) ].

Definition out : Output := mkOutput [] [START_URL].

End Offline.

(** The site of the scenario, crawled by one worker up to two pages, with
    a progress report every two pages. *)
Module Single.

Definition config : Config :=
  {| start_url := START_URL; workers := 1; max_pages := 2;
     check_interval := 2 |}.

Definition st2 : State :=
  mkState {[ Scenario.B; Scenario.C ]} {[ Scenario.S; Scenario.A ]}
          {[ Scenario.A; Scenario.B; Scenario.C ]} ∅ 2.

Definition log : Log :=
  [ ([Scenario.A], [Scenario.rA]); ([Scenario.S], [Scenario.rS]) ].

End Single.

(** The two files a crawl of the site of the scenario may write. *)
Definition scenario_files : Output :=
  mkOutput [Scenario.A; Scenario.B; Scenario.C] [Scenario.B].

(** * Properties *)

(** Inclusions between sets of URLs, decided element by element. *)
Ltac set_pointwise :=
  set_unfold;
  let x := fresh "x" in
  intros x;
  repeat match goal with
         | H : ∀ y : string, _ |- _ => specialize (H x)
         end;
  first [ tauto | naive_solver ].

(** ** Strings *)

Lemma substring_all (s : string) : String.substring 0 (String.length s) s = s.
Proof. induction s as [|c s IH]; simpl; [done | by rewrite IH]. Qed.

Lemma substring_skip (front s : string) :
  String.substring (String.length front) (String.length s) (front +:+ s) = s.
Proof. induction front as [|c front IH]; simpl; [apply substring_all | done]. Qed.

Lemma length_app_string (a b : string) :
  String.length (a +:+ b) = (String.length a + String.length b)%nat.
Proof. induction a as [|c a IH]; simpl; [done | by rewrite IH]. Qed.

Lemma endswith_app (front suffix : string) :
  endswith (front +:+ suffix) suffix = true.
Proof.
  unfold endswith. rewrite length_app_string.
  replace (Nat.leb _ _) with true by (symmetry; apply Nat.leb_le; lia).
  replace (String.length front + String.length suffix - String.length suffix)%nat
    with (String.length front) by lia.
  rewrite substring_skip. apply String.eqb_refl.
Qed.

(** ** The filter *)

Section filter_facts.
Context {lib : PyLib}.

Lemma is_valid_link_excluded href parsed :
  urlparse (str_lower (str_strip href)) = Return parsed →
  existsb (endswith (path parsed +:+ query parsed)) EXCLUDED_EXTENSIONS = true →
  is_valid_link href = Return false.
Proof.
  intros Hparse Hext. unfold is_valid_link.
  destruct (String.eqb href ""); [done|].
  destruct (existsb _ ["mailto:"; "javascript:"; "tel:"]); [done|].
  rewrite Hparse. unfold mbind, Py_bind. by rewrite Hext.
Qed.

(** C7: an href whose path-plus-query text ([parsed.path + parsed.query]
    of the stripped, lower-cased href) ends with one of the excluded
    extensions is rejected by [is_valid_link], whatever its host is. *)
Theorem excluded_extension_is_invalid (href : string) (parsed : ParseResult)
    (ext front : string) :
  urlparse (str_lower (str_strip href)) = Return parsed →
  ext ∈ EXCLUDED_EXTENSIONS →
  path parsed +:+ query parsed = front +:+ ext →
  is_valid_link href = Return false.
Proof.
  intros Hparse Hext Hends. apply (is_valid_link_excluded _ parsed Hparse).
  apply existsb_exists. exists ext. split.
  - by apply list_elem_of_In.
  - rewrite Hends. apply endswith_app.
Qed.

(** ** The page worker *)

Lemma process_page_cases (pw : Session) (url : string) :
  (∃ links,
      with_context (pw_enter pw) (pw_exit pw) (page_links pw url) = Return links ∧
      process_page pw url = Return (url, links, None)) ∨
  (∃ e,
      with_context (pw_enter pw) (pw_exit pw) (page_links pw url) = Raise e ∧
      process_page pw url = Return (url, ∅, Some (str_of_exc e))) ∨
  (∃ b,
      with_context (pw_enter pw) (pw_exit pw) (page_links pw url) = RaiseBase b ∧
      process_page pw url = RaiseBase b).
Proof.
  unfold process_page, with_context.
  destruct (pw_enter pw) as [[]|e0|b0];
    [|right; left; by exists e0|right; right; by exists b0].
  destruct (page_links pw url) as [links|e1|b1], (pw_exit pw) as [[]|e2|b2];
    simpl;
    first [ left; by eexists
          | right; left; by eexists
          | right; right; by eexists ].
Qed.

Lemma raise_cases {A} (m : Py A) : (∃ a, m = Return a) ∨ (∃ x, m = raise x).
Proof.
  destruct m as [a|e|b]; [left; by exists a | right..].
  - by exists (Exc e).
  - by exists (Base b).
Qed.

Lemma raise_unit_cases (m : Py unit) : m = Return () ∨ ∃ x, m = raise x.
Proof. destruct (raise_cases m) as [[[] ->]|?]; [by left | by right]. Qed.

Lemma raise_bind {A B} (x : PyRaised) (f : A → Py B) : raise x ≫= f = raise x.
Proof. by destruct x. Qed.

(** The body of the [with] block raises what its first failing call
    raises. *)
Lemma page_links_raises (pw : Session) (url : string) (x : PyRaised) :
  body_raises pw url x → page_links pw url = raise x.
Proof.
  unfold page_links.
  destruct 1 as [H1|H1 H2|H1 H2 H3|H1 H2 H3 H4|H1 H2 H3 H4 H5
                |hrefs H1 H2 H3 H4 H5 H6|hrefs H1 H2 H3 H4 H5 H6 H7
                |hrefs H1 H2 H3 H4 H5 H6 H7 H8];
    repeat match goal with
           | H : _ = Return _ |- _ => rewrite H; clear H; cbn [mbind Py_bind]
           end;
    match goal with H : _ = raise x |- _ => rewrite H end;
    by destruct x.
Qed.

Lemma page_links_cases (pw : Session) (url : string) :
  (∃ hrefs,
     chromium_launch pw = Return () ∧ new_page pw = Return () ∧
     goto pw url = Return () ∧ wait_for_load_state pw = Return () ∧
     eval_on_selector_all pw = Return hrefs ∧ page_close pw = Return () ∧
     browser_close pw = Return () ∧
     ∃ links, collect_valid_links hrefs ∅ = Return links) ∨
  ∃ x, body_raises pw url x.
Proof.
  destruct (raise_unit_cases (chromium_launch pw)) as [H1|[x H1]];
    [|right; exists x; by apply raises_launch].
  destruct (raise_unit_cases (new_page pw)) as [H2|[x H2]];
    [|right; exists x; by apply raises_new_page].
  destruct (raise_unit_cases (goto pw url)) as [H3|[x H3]];
    [|right; exists x; by apply raises_goto].
  destruct (raise_unit_cases (wait_for_load_state pw)) as [H4|[x H4]];
    [|right; exists x; by apply raises_wait].
  destruct (raise_cases (eval_on_selector_all pw)) as [[hrefs H5]|[x H5]];
    [|right; exists x; by apply raises_eval].
  destruct (raise_unit_cases (page_close pw)) as [H6|[x H6]];
    [|right; exists x; by apply (raises_page_close pw url x hrefs)].
  destruct (raise_unit_cases (browser_close pw)) as [H7|[x H7]];
    [|right; exists x; by apply (raises_browser_close pw url x hrefs)].
  destruct (raise_cases (collect_valid_links hrefs ∅)) as [[links H8]|[x H8]];
    [|right; exists x; by apply (raises_filter pw url x hrefs)].
  left. exists hrefs. split_and!; [done..|]. by exists links.
Qed.

Lemma loads_process_page (pw : Session) (url : string) (hrefs : list string) :
  loads pw url hrefs →
  process_page pw url
  = match collect_valid_links hrefs ∅ with
    | Return links => Return (url, links, None)
    | Raise e => Return (url, ∅, Some (str_of_exc e))
    | RaiseBase b => RaiseBase b
    end.
Proof.
  intros (H1 & H2 & H3 & H4 & H5 & H6 & H7 & H8 & H9).
  unfold process_page, with_context, page_links.
  rewrite H1, H2, H3, H4, H5, H6, H7, H8, H9. simpl.
  by destruct (collect_valid_links hrefs ∅).
Qed.

Lemma leaves_process_page (pw : Session) (url : string) (x : PyRaised) :
  leaves pw url x →
  process_page pw url
  = match x with
    | Exc e => Return (url, ∅, Some (str_of_exc e))
    | Base b => RaiseBase b
    end.
Proof.
  unfold process_page, with_context.
  intros [Henter|[[Henter Hexit]|(Henter & Hexit & Hbody%page_links_raises)]].
  - rewrite Henter. by destruct x.
  - rewrite Henter, Hexit.
    by destruct (page_links pw url ≫= _), x.
  - rewrite Henter, Hexit, Hbody, raise_bind. by destruct x.
Qed.

(** C6 (amended): [process_page] lets no instance of [Exception] out.
    When every browser call returns and the loop over the hrefs completes
    it returns [(url, links, None)].  When entering or leaving the [with]
    statement, [launch], [new_page], the navigation ([goto]), the loading
    ([wait_for_load_state]), the link extraction ([eval_on_selector_all]
    or the filter applied to an href) or one of the two [close] calls
    raises an instance [e] of [Exception], it returns
    [(url, set(), str(e))], whose error is not [None].  A [BaseException]
    that is not an [Exception] is not caught: the call raises it.  One of
    these cases always applies. *)
Theorem process_page_catches_exceptions (pw : Session) (url : string) :
  (∀ e, process_page pw url ≠ Raise e) ∧
  (∀ hrefs links,
     loads pw url hrefs → collect_valid_links hrefs ∅ = Return links →
     process_page pw url = Return (url, links, None)) ∧
  (∀ e, leaves pw url (Exc e) →
        process_page pw url = Return (url, ∅, Some (str_of_exc e)) ∧
        Some (str_of_exc e) ≠ None) ∧
  (∀ b, leaves pw url (Base b) → process_page pw url = RaiseBase b) ∧
  ((∃ hrefs links,
      loads pw url hrefs ∧ collect_valid_links hrefs ∅ = Return links) ∨
   (∃ x, leaves pw url x)).
Proof.
  split_and!.
  - intros e.
    by destruct (process_page_cases pw url)
      as [(? & _ & ->)|[(? & _ & ->)|(? & _ & ->)]].
  - intros hrefs links Hloads Hlinks.
    by rewrite (loads_process_page _ _ _ Hloads), Hlinks.
  - intros e Hleaves. split; [|done].
    by rewrite (leaves_process_page _ _ _ Hleaves).
  - intros b Hleaves. by rewrite (leaves_process_page _ _ _ Hleaves).
  - destruct (raise_unit_cases (pw_enter pw)) as [Henter|[x Henter]];
      [|right; exists x; by left].
    destruct (raise_unit_cases (pw_exit pw)) as [Hexit|[x Hexit]];
      [|right; exists x; right; by left].
    destruct (page_links_cases pw url)
      as [(hrefs & H1 & H2 & H3 & H4 & H5 & H6 & H7 & links & H8)|[x Hx]].
    + left. exists hrefs, links. by split_and!.
    + right. exists x. right. by right.
Qed.

(** For instance: a navigation that fails, in a session that is otherwise
    fine, gives the error triple with the message of the exception. *)
Lemma navigation_failure_reported (pw : Session) (url : string) (e : PyExc) :
  pw_enter pw = Return () → chromium_launch pw = Return () →
  new_page pw = Return () → goto pw url = Raise e → pw_exit pw = Return () →
  process_page pw url = Return (url, ∅, Some (str_of_exc e)).
Proof.
  intros Henter Hlaunch Hpage Hgoto Hexit.
  unfold process_page, with_context, page_links.
  by rewrite Henter, Hexit, Hlaunch, Hpage, Hgoto.
Qed.

Lemma fetched_shape (web : Web) (url : string) (r : Result) :
  fetched web url r →
  res_url r = url ∧ (truthy (res_error r) = true → res_links r = ∅).
Proof.
  intros (pw & _ & Hp).
  destruct (process_page_cases pw url)
    as [(links & _ & Hq)|[(e & _ & Hq)|(b & _ & Hq)]];
    rewrite Hq in Hp; [injection Hp as <-; by split..|done].
Qed.

End filter_facts.

(** C6 (as stated) does not hold: [except Exception] does not catch a
    [BaseException] that is not an [Exception].  When the navigation
    raises one, [process_page] returns no triple: it raises it. *)
Lemma base_exception_leaves_process_page :
  ¬ ∀ (pw : Session) (url : string),
      ∃ links error, process_page pw url = Return (url, links, error).
Proof.
  intros Hclaim.
  destruct (Hclaim (page_aborting "KeyboardInterrupt") START_URL)
    as (links & error & Hp).
  discriminate Hp.
Qed.

Lemma process_page_catches_exceptions_witness :
  leaves (page_failing Scenario.timeout_msg) Scenario.B
         (Exc (Exception Scenario.timeout_msg)) ∧
  process_page (page_failing Scenario.timeout_msg) Scenario.B
  = Return (Scenario.B, ∅, Some Scenario.timeout_msg) ∧
  leaves (page_aborting "KeyboardInterrupt") Scenario.B
         (Base (BaseException "KeyboardInterrupt")) ∧
  process_page (page_aborting "KeyboardInterrupt") Scenario.B
  = RaiseBase (BaseException "KeyboardInterrupt").
Proof.
  assert (leaves (page_failing Scenario.timeout_msg) Scenario.B
            (Exc (Exception Scenario.timeout_msg))) as Hfails.
  { right. right. split_and!; [done..|]. by apply raises_goto. }
  assert (leaves (page_aborting "KeyboardInterrupt") Scenario.B
            (Base (BaseException "KeyboardInterrupt"))) as Haborts.
  { right. right. split_and!; [done..|]. by apply raises_goto. }
  pose proof (process_page_catches_exceptions
                (page_failing Scenario.timeout_msg) Scenario.B)
    as (_ & _ & Hcaught & _).
  pose proof (process_page_catches_exceptions
                (page_aborting "KeyboardInterrupt") Scenario.B)
    as (_ & _ & _ & Hleft & _).
  split_and!; [exact Hfails | exact (proj1 (Hcaught _ Hfails))
              | exact Haborts | exact (Hleft _ Haborts)].
Defined.

(** ** Merging results *)

Lemma visited_merge_result (st : State) (r : Result) :
  visited (merge_result st r) = visited st ∪ {[ res_url r ]}.
Proof. destruct r as [[url links] err]. unfold merge_result. by destruct (truthy err). Qed.

Lemma visited_merge_results (results : list Result) (st : State) :
  visited (merge_results st results)
  = visited st ∪ list_to_set (map res_url results).
Proof.
  revert st. induction results as [|r rs IH]; intros st; simpl.
  - set_solver.
  - unfold merge_results in *. simpl. rewrite IH, visited_merge_result. set_solver.
Qed.

Lemma all_links_merge_result (st : State) (r : Result) :
  all_links st ⊆ all_links (merge_result st r).
Proof.
  destruct r as [[url links] err]. unfold merge_result.
  destruct (truthy err); simpl; set_solver.
Qed.

Lemma all_links_merge_results (results : list Result) (st : State) :
  all_links st ⊆ all_links (merge_results st results).
Proof.
  revert st. induction results as [|r rs IH]; intros st; [done|].
  unfold merge_results in *. simpl.
  etrans; [apply (all_links_merge_result st r) | apply IH].
Qed.

Lemma failed_merge_result (st : State) (r : Result) :
  failed_urls st ⊆ visited st →
  failed_urls (merge_result st r) ⊆ visited (merge_result st r).
Proof.
  destruct r as [[url links] err]. unfold merge_result.
  destruct (truthy err); simpl; set_solver.
Qed.

Lemma failed_merge_results (results : list Result) (st : State) :
  failed_urls st ⊆ visited st →
  failed_urls (merge_results st results) ⊆ visited (merge_results st results).
Proof.
  revert st. induction results as [|r rs IH]; intros st Hst; [done|].
  unfold merge_results in *. simpl. by apply IH, failed_merge_result.
Qed.

Lemma report_sets (cfg : Config) (st : State) :
  to_visit (report cfg st) = to_visit st ∧
  visited (report cfg st) = visited st ∧
  all_links (report cfg st) = all_links st ∧
  failed_urls (report cfg st) = failed_urls st.
Proof. unfold report. by destruct (_ <=? _)%Z. Qed.

Lemma loop_body_visited cfg listing results st :
  visited (loop_body cfg listing results st)
  = visited st ∪ list_to_set (map res_url results).
Proof.
  unfold loop_body.
  destruct (report_sets cfg (merge_results
    (mkState (to_visit st ∖ list_to_set (current_batch cfg listing))
       (visited st) (all_links st) (failed_urls st) (last_check st)) results))
    as (_ & -> & _ & _).
  by rewrite visited_merge_results.
Qed.

Lemma loop_body_all_links cfg listing results st :
  all_links st ⊆ all_links (loop_body cfg listing results st).
Proof.
  unfold loop_body.
  destruct (report_sets cfg (merge_results
    (mkState (to_visit st ∖ list_to_set (current_batch cfg listing))
       (visited st) (all_links st) (failed_urls st) (last_check st)) results))
    as (_ & _ & -> & _).
  apply (all_links_merge_results results (mkState _ _ _ _ _)).
Qed.

Lemma loop_body_failed cfg listing results st :
  failed_urls st ⊆ visited st →
  failed_urls (loop_body cfg listing results st)
  ⊆ visited (loop_body cfg listing results st).
Proof.
  intros Hst. unfold loop_body.
  destruct (report_sets cfg (merge_results
    (mkState (to_visit st ∖ list_to_set (current_batch cfg listing))
       (visited st) (all_links st) (failed_urls st) (last_check st)) results))
    as (_ & -> & _ & ->).
  by apply (failed_merge_results results (mkState _ _ _ _ _)).
Qed.

(** ** Rounds and runs *)

Section crawl_facts.
Context {lib : PyLib} (cfg : Config) (web : Web).

Lemma loop_guard_true (st : State) :
  loop_guard cfg st = true ↔ to_visit st ≠ ∅ ∧ size (visited st) < max_pages cfg.
Proof.
  unfold loop_guard. rewrite andb_true_iff, negb_true_iff, bool_decide_eq_false.
  by rewrite Nat.ltb_lt.
Qed.

Lemma loop_guard_false (st : State) :
  loop_guard cfg st = false ↔ to_visit st = ∅ ∨ max_pages cfg ≤ size (visited st).
Proof.
  unfold loop_guard. rewrite andb_false_iff, negb_false_iff, bool_decide_eq_true.
  rewrite Nat.ltb_ge. done.
Qed.

Lemma fetched_urls (done : list string) (results : list Result) :
  Forall2 (fetched web) done results → map res_url results = done.
Proof.
  induction 1 as [|url r done results Hf _ IH]; simpl; [done|].
  destruct (fetched_shape web url r Hf) as [-> _]. by rewrite IH.
Qed.

Lemma current_batch_length (listing : list string) :
  length (current_batch cfg listing) ≤ workers cfg.
Proof. unfold current_batch. rewrite length_take. lia. Qed.

Lemma round_inv st batch results st' :
  round cfg web st batch results st' →
  ∃ listing,
    loop_guard cfg st = true ∧ set_listing (to_visit st) listing ∧
    batch = current_batch cfg listing ∧
    map res_url results ≡ₚ batch ∧
    Forall (λ r, truthy (res_error r) = true → res_links r = ∅) results ∧
    st' = loop_body cfg listing results st.
Proof.
  intros [listing done results' Hg Hl Hp Hf]. exists listing.
  split_and!; [done..| |  |done].
  - by rewrite (fetched_urls _ _ Hf).
  - clear Hp. induction Hf as [|url r ?? Hr _ IH]; constructor; [|done].
    by destruct (fetched_shape web url r Hr).
Qed.

Lemma round_visited st batch results st' :
  round cfg web st batch results st' →
  visited st' = visited st ∪ list_to_set batch.
Proof.
  intros (listing & _ & _ & _ & Hp & _ & ->)%round_inv.
  rewrite loop_body_visited. f_equal. apply set_eq. intros x.
  by rewrite !elem_of_list_to_set, Hp.
Qed.

Lemma round_visited_size st batch results st' :
  round cfg web st batch results st' →
  size (visited st) < max_pages cfg ∧
  size (visited st') ≤ size (visited st) + workers cfg.
Proof.
  intros Hr. pose proof (round_visited _ _ _ _ Hr) as ->.
  destruct (round_inv _ _ _ _ Hr) as (listing & Hg & [Hnd _] & -> & _).
  apply loop_guard_true in Hg as [_ Hlt]. split; [done|].
  rewrite size_union_alt.
  assert (size (list_to_set (C:=gset string) (current_batch cfg listing) ∖ visited st)
          ≤ workers cfg); [|lia].
  etrans; [apply subseteq_size, (subseteq_difference_l _ _ _ (reflexivity _))|].
  rewrite size_list_to_set.
  - apply current_batch_length.
  - eapply sublist_NoDup; [exact Hnd | apply sublist_take].
Qed.

Lemma run_failed_visited log st :
  run cfg web log st → failed_urls st ⊆ visited st.
Proof.
  induction 1 as [|log st batch results st' _ IH Hr]; [done|].
  destruct (round_inv _ _ _ _ Hr) as (listing & _ & _ & _ & _ & _ & ->).
  by apply loop_body_failed.
Qed.

Lemma run_visited_bound log st :
  0 < workers cfg →
  run cfg web log st → size (visited st) < max_pages cfg + workers cfg.
Proof.
  intros Hw. induction 1 as [|log st batch results st' _ IH Hr].
  - cbn [init visited]. rewrite size_empty. lia.
  - destruct (round_visited_size _ _ _ _ Hr). lia.
Qed.

End crawl_facts.

(** ** Sites that answer the same way every time *)

Section site_facts.
Context {lib : PyLib} (cfg : Config) (pages : string → Session).

Lemma process_page_result (pw : Session) (url : string) (r : Result) :
  process_page pw url = Return r ↔ page_result pw url = Some r.
Proof.
  unfold page_result. destruct (process_page pw url); split; congruence.
Qed.

Lemma fetched_site (url : string) (r : Result) :
  fetched (site pages) url r ↔ page_result (pages url) url = Some r.
Proof.
  unfold fetched, site. split.
  - intros (pw & -> & Hp). by apply process_page_result.
  - intros Hp. exists (pages url). split; [done | by apply process_page_result].
Qed.

Lemma Forall2_fetched_site (done : list string) (results : list Result) :
  Forall2 (fetched (site pages)) done results ↔
  mapM (λ url, page_result (pages url) url) done = Some results.
Proof.
  rewrite mapM_Some.
  split; intros Hf; eapply Forall2_impl; [exact Hf| |exact Hf|];
    intros url r; apply fetched_site.
Qed.

Lemma set_listing_elements (X : gset string) (l : list string) :
  set_listing X l ↔ l ∈ permutations (elements X).
Proof.
  rewrite permutations_Permutation. unfold set_listing. split.
  - intros [Hnd <-]. apply NoDup_Permutation; [apply NoDup_elements | done |].
    intros x. by rewrite elem_of_elements, elem_of_list_to_set.
  - intros Hp. split.
    + rewrite <-Hp. apply NoDup_elements.
    + apply set_eq. intros x.
      by rewrite elem_of_list_to_set, <-Hp, elem_of_elements.
Qed.

Lemma round_successors st batch results st' :
  round cfg (site pages) st batch results st' → st' ∈ successors cfg pages st.
Proof.
  intros [listing done results' Hg Hl Hp Hf]. unfold successors. rewrite Hg.
  apply list_elem_of_bind. exists listing. split; [|by apply set_listing_elements].
  apply list_elem_of_bind. exists done. split.
  - apply Forall2_fetched_site in Hf. rewrite Hf.
    by apply list_elem_of_singleton.
  - by apply permutations_Permutation.
Qed.

Lemma successors_round st st' :
  st' ∈ successors cfg pages st →
  ∃ batch results, round cfg (site pages) st batch results st'.
Proof.
  unfold successors. destruct (loop_guard cfg st) eqn:Hg; [|by intros ?%elem_of_nil].
  intros (listing & (done & Hst & Hd)%list_elem_of_bind & Hl)%list_elem_of_bind.
  destruct (mapM _ done) as [results|] eqn:Hres; [|by apply elem_of_nil in Hst].
  apply list_elem_of_singleton in Hst as ->.
  exists (current_batch cfg listing), results.
  apply (round_intro cfg (site pages) st listing done);
    [done| by apply set_listing_elements | |].
  - symmetry. by apply permutations_Permutation.
  - by apply Forall2_fetched_site.
Qed.

Lemma run_states_after log st :
  run cfg (site pages) log st → st ∈ states_after cfg pages (length log).
Proof.
  induction 1 as [|log st batch results st' _ IH Hr]; simpl.
  - by apply list_elem_of_singleton.
  - apply list_elem_of_bind. exists st. split; [|done]. by eapply round_successors.
Qed.

Lemma states_after_run n st :
  st ∈ states_after cfg pages n →
  ∃ log, length log = n ∧ run cfg (site pages) log st.
Proof.
  revert st. induction n as [|n IH]; intros st; simpl.
  - intros ->%list_elem_of_singleton. exists []. split; [done | constructor].
  - intros (st0 & Hs & (log & <- & Hrun)%IH)%list_elem_of_bind.
    destruct (successors_round _ _ Hs) as (batch & results & Hr).
    exists ((batch, results) :: log). split; [done | by econstructor].
Qed.

Lemma states_after_nil n k :
  states_after cfg pages n = [] → states_after cfg pages (n + k) = [].
Proof.
  intros Hn. induction k as [|k IH].
  - by rewrite Nat.add_0_r.
  - rewrite Nat.add_succ_r. simpl. by rewrite IH.
Qed.

End site_facts.

(** ** The scenario of the design document *)

Section scenario_facts.

Lemma round_site_intro (cfg : Config) (pages : string → Session)
    (st : State) (listing done : list string) (results : list Result)
    (st' : State) :
  loop_guard cfg st = true →
  bool_decide (NoDup listing) = true →
  bool_decide (list_to_set listing = to_visit st) = true →
  done ≡ₚ current_batch cfg listing →
  bool_decide (mapM (λ url, page_result (pages url) url) done = Some results)
    = true →
  bool_decide (st' = loop_body cfg listing results st) = true →
  round cfg (site pages) st (current_batch cfg listing) results st'.
Proof.
  intros Hg Hnd%bool_decide_eq_true Hset%bool_decide_eq_true Hp
         Hres%bool_decide_eq_true ->%bool_decide_eq_true.
  apply (round_intro cfg (site pages) st listing done); [done..|].
  by apply Forall2_fetched_site.
Qed.

Ltac concrete_round cfg pages st listing done :=
  apply (round_site_intro cfg pages st listing done);
  [ vm_compute; reflexivity
  | vm_compute; reflexivity
  | vm_compute; reflexivity
  | first [ reflexivity | apply perm_swap ]
  | vm_compute; reflexivity
  | vm_compute; reflexivity ].

Lemma scenario_round1 :
  round Scenario.config Scenario.web (init Scenario.config)
        [Scenario.S] [Scenario.rS] Scenario.st1.
Proof.
  concrete_round Scenario.config Scenario.pages (init Scenario.config)
    [Scenario.S] [Scenario.S].
Qed.

Lemma scenario_round2 :
  round Scenario.config Scenario.web Scenario.st1
        [Scenario.A; Scenario.B] [Scenario.rA; Scenario.rB] Scenario.st2.
Proof.
  concrete_round Scenario.config Scenario.pages Scenario.st1
    [Scenario.A; Scenario.B] [Scenario.A; Scenario.B].
Qed.

Lemma scenario_round3 :
  round Scenario.config Scenario.web Scenario.st2
        [Scenario.B; Scenario.C] [Scenario.rB; Scenario.rC] Scenario.final.
Proof.
  concrete_round Scenario.config Scenario.pages Scenario.st2
    [Scenario.B; Scenario.C] [Scenario.B; Scenario.C].
Qed.

Lemma scenario_run3 :
  run Scenario.config Scenario.web Scenario.log3 Scenario.final.
Proof.
  repeat econstructor;
    [ apply scenario_round1 | apply scenario_round2 | apply scenario_round3 ].
Qed.

Lemma scenario_states (n : nat) :
  n ≤ 3 →
  Forall (λ st, Scenario.expected n st = true)
         (states_after Scenario.config Scenario.pages n).
Proof.
  intros Hn. apply Forall_forall. intros st Hst.
  assert (forallb (Scenario.expected n)
            (states_after Scenario.config Scenario.pages n) = true) as Hall.
  { destruct n as [|[|[|[|n]]]]; [by vm_compute..|lia]. }
  rewrite forallb_forall in Hall. by apply Hall, list_elem_of_In.
Qed.

Lemma scenario_no_fourth_round (n : nat) :
  3 < n → states_after Scenario.config Scenario.pages n = [].
Proof.
  intros Hn. replace n with (4 + (n - 4)) by lia.
  apply states_after_nil. by vm_compute.
Qed.

Lemma scenario_runs (log : Log) (st : State) :
  run Scenario.config Scenario.web log st →
  length log ≤ 3 ∧
  if length log =? 3 then st = Scenario.final
  else loop_guard Scenario.config st = true.
Proof.
  intros Hrun%run_states_after.
  destruct (decide (length log ≤ 3)) as [Hle|Hgt]; last first.
  { rewrite scenario_no_fourth_round in Hrun by lia. by apply elem_of_nil in Hrun. }
  split; [done|].
  pose proof (scenario_states _ Hle) as Hall.
  rewrite Forall_forall in Hall. specialize (Hall st Hrun).
  unfold Scenario.expected in Hall.
  destruct (length log =? 3); [by apply bool_decide_eq_true in Hall | done].
Qed.

(** What the two output files hold after a call on the site of the
    scenario. *)
Lemma scenario_output (out : Output) :
  crawl_all_parallel Scenario.config Scenario.web out →
  set_listing {[ Scenario.A; Scenario.B; Scenario.C ]} (recursive_links_json out) ∧
  set_listing {[ Scenario.B ]} (failed_urls_json out).
Proof.
  intros (log & st & Hrun & Hstop & Hlinks & Hfailed).
  destruct (scenario_runs log st Hrun) as [_ Hst].
  destruct (length log =? 3); [|congruence].
  by subst st.
Qed.

(** C5: on the site of the scenario (the seed links to A and B, A links to
    B and C, B fails, C has no link), with two workers and a cap of 100,
    every run of the loop, whatever the enumeration of the frontier and the
    completion order in each batch, stops after exactly three iterations,
    with an empty frontier, Visited = {S, A, B, C}, FailedSet = {B} and
    AllLinks = {A, B, C}. *)
Theorem scenario_outcome (log : Log) (st : State) :
  run Scenario.config Scenario.web log st →
  length log ≤ 3 ∧
  (loop_guard Scenario.config st = false ↔ length log = 3) ∧
  (loop_guard Scenario.config st = false →
   to_visit st = ∅ ∧
   visited st = {[ Scenario.S; Scenario.A; Scenario.B; Scenario.C ]} ∧
   failed_urls st = {[ Scenario.B ]} ∧
   all_links st = {[ Scenario.A; Scenario.B; Scenario.C ]}).
Proof.
  intros [Hle Hst]%scenario_runs.
  destruct (length log =? 3) eqn:Hn.
  - apply Nat.eqb_eq in Hn. subst st.
    split_and!; [done| |done].
    split; [done|]. intros _. by vm_compute.
  - apply Nat.eqb_neq in Hn. rewrite Hst.
    split_and!; [done| |done]. split; [done | lia].
Qed.

Lemma scenario_outcome_witness :
  run Scenario.config Scenario.web Scenario.log3 Scenario.final ∧
  length Scenario.log3 ≤ 3 ∧
  (loop_guard Scenario.config Scenario.final = false ↔ length Scenario.log3 = 3) ∧
  (loop_guard Scenario.config Scenario.final = false →
   to_visit Scenario.final = ∅ ∧
   visited Scenario.final
     = {[ Scenario.S; Scenario.A; Scenario.B; Scenario.C ]} ∧
   failed_urls Scenario.final = {[ Scenario.B ]} ∧
   all_links Scenario.final = {[ Scenario.A; Scenario.B; Scenario.C ]}).
Proof.
  split; [exact scenario_run3 | exact (scenario_outcome _ _ scenario_run3)].
Defined.

(** The same site under the constants of the module. *)

Lemma default_round1 :
  round default_config Scenario.web (init default_config)
        [Scenario.S] [Scenario.rS] Scenario.st1.
Proof.
  concrete_round default_config Scenario.pages (init default_config)
    [Scenario.S] [Scenario.S].
Qed.

Lemma default_round2 :
  round default_config Scenario.web Scenario.st1
        [Scenario.A; Scenario.B] [Scenario.rA; Scenario.rB] Scenario.st2.
Proof.
  concrete_round default_config Scenario.pages Scenario.st1
    [Scenario.A; Scenario.B] [Scenario.A; Scenario.B].
Qed.

Lemma default_round3 :
  round default_config Scenario.web Scenario.st2
        [Scenario.B; Scenario.C] [Scenario.rB; Scenario.rC] Scenario.final.
Proof.
  concrete_round default_config Scenario.pages Scenario.st2
    [Scenario.B; Scenario.C] [Scenario.B; Scenario.C].
Qed.

Lemma default_run2 : run default_config Scenario.web Scenario.log2 Scenario.st2.
Proof. repeat econstructor; [apply default_round1 | apply default_round2]. Qed.

Lemma default_run3 : run default_config Scenario.web Scenario.log3 Scenario.final.
Proof. econstructor; [apply default_run2 | apply default_round3]. Qed.

(** In the other completion order of the second batch, B is visited before
    the links of A are merged, and does not come back. *)
Lemma default_round2_other_order :
  round default_config Scenario.web Scenario.st1
        [Scenario.A; Scenario.B] [Scenario.rB; Scenario.rA] Scenario.st2'.
Proof.
  concrete_round default_config Scenario.pages Scenario.st1
    [Scenario.A; Scenario.B] [Scenario.B; Scenario.A].
Qed.

(** C1 (what the code does): with the constants of the module, on the
    site of the scenario, when the result of A is merged before the result
    of B in the second iteration, B is in [to_visit] and in [visited] after
    that iteration, and the third iteration hands B to [process_page] a
    second time. *)
Theorem visited_url_back_in_frontier :
  run default_config Scenario.web Scenario.log2 Scenario.st2 ∧
  Scenario.B ∈ to_visit Scenario.st2 ∩ visited Scenario.st2 ∧
  round default_config Scenario.web Scenario.st2
        [Scenario.B; Scenario.C] [Scenario.rB; Scenario.rC] Scenario.final ∧
  ¬ NoDup (dispatched Scenario.log3).
Proof.
  split_and!.
  - apply default_run2.
  - apply (bool_decide_unpack _). by vm_compute.
  - apply default_round3.
  - apply (bool_decide_unpack _). by vm_compute.
Qed.

(** The two iterations on the site with a link back to the seed. *)

Lemma backlink_round1 :
  round default_config Backlink.web (init default_config)
        [START_URL] [Backlink.r1] Backlink.st1.
Proof.
  concrete_round default_config Backlink.pages (init default_config)
    [START_URL] [START_URL].
Qed.

Lemma backlink_round2 :
  round default_config Backlink.web Backlink.st1
        [Scenario.A] [Backlink.r2] Backlink.final.
Proof.
  concrete_round default_config Backlink.pages Backlink.st1
    [Scenario.A] [Scenario.A].
Qed.

Lemma backlink_run : run default_config Backlink.web Backlink.log Backlink.final.
Proof.
  repeat econstructor; [apply backlink_round1 | apply backlink_round2].
Qed.

End scenario_facts.

(** ** The library model on the examples of the design document *)

Example filter_examples :
  is_valid_link "mailto:a@yc.go.kr" = Return false ∧
  is_valid_link "https://yc.go.kr/doc.pdf" = Return false ∧
  is_valid_link "https://facebook.com/redirect?to=yc.go.kr" = Return false ∧
  is_valid_link "https://yc.go.kr/page?x=1#frag" = Return true ∧
  split_head "#" "https://yc.go.kr/page?x=1#frag" = "https://yc.go.kr/page?x=1" ∧
  is_valid_link "" = Return false ∧
  is_valid_link "  HTTPS://YC.GO.KR/Main.do " = Return true ∧
  is_valid_link "ftp://yc.go.kr/file" = Return false ∧
  is_valid_link "https://example.org/" = Return false.
Proof. by vm_compute. Qed.

Example urlparse_examples :
  urlparse "https://yc.go.kr/a/b;c?x=1#top"
    = Return (mkParseResult "https" "yc.go.kr" "/a/b" "c" "x=1" "top") ∧
  urlparse "http://[::1/x" = Raise (Exception "Invalid IPv6 URL").
Proof. by vm_compute. Qed.

(** A [ValueError] of [urlparse] on one href makes the whole page fail. *)
Example process_page_bad_href :
  process_page (page_with ["https://yc.go.kr/a.do"; "http://[::1/x"])
               "https://yc.go.kr/main.do"
  = Return ("https://yc.go.kr/main.do", ∅, Some "Invalid IPv6 URL").
Proof. by vm_compute. Qed.

(** ** The filter on a concrete href *)

Lemma excluded_extension_is_invalid_witness :
  urlparse (str_lower (str_strip "https://yc.go.kr/doc.pdf"))
    = Return (mkParseResult "https" "yc.go.kr" "/doc.pdf" "" "" "") ∧
  ".pdf" ∈ EXCLUDED_EXTENSIONS ∧
  contains BASE_DOMAIN "yc.go.kr" = true ∧
  is_valid_link "https://yc.go.kr/doc.pdf" = Return false.
Proof.
  assert (urlparse (str_lower (str_strip "https://yc.go.kr/doc.pdf"))
          = Return (mkParseResult "https" "yc.go.kr" "/doc.pdf" "" "" ""))
    as Hparse by (vm_compute; reflexivity).
  assert (".pdf" ∈ EXCLUDED_EXTENSIONS) as Hext
    by (apply (bool_decide_unpack _); vm_compute; exact I).
  split_and!; [exact Hparse | exact Hext | vm_compute; reflexivity |].
  apply (excluded_extension_is_invalid "https://yc.go.kr/doc.pdf"
           (mkParseResult "https" "yc.go.kr" "/doc.pdf" "" "" "")
           ".pdf" "/doc" Hparse Hext).
  reflexivity.
Defined.

(** ** Invariants of the loop *)

(** C8: an iteration of the loop never removes a member of [all_links];
    its size does not decrease. *)
Theorem all_links_never_shrinks {lib : PyLib} (cfg : Config) (web : Web)
    (st : State) (batch : list string) (results : list Result) (st' : State) :
  round cfg web st batch results st' →
  all_links st ⊆ all_links st' ∧ size (all_links st) ≤ size (all_links st').
Proof.
  intros (listing & _ & _ & _ & _ & _ & ->)%round_inv.
  pose proof (loop_body_all_links cfg listing results st) as Hsub.
  split; [done | by apply subseteq_size].
Qed.

Lemma all_links_never_shrinks_witness :
  round default_config Scenario.web Scenario.st1
        [Scenario.A; Scenario.B] [Scenario.rA; Scenario.rB] Scenario.st2 ∧
  all_links Scenario.st1 ⊆ all_links Scenario.st2 ∧
  size (all_links Scenario.st1) ≤ size (all_links Scenario.st2).
Proof.
  split; [exact default_round2 |].
  exact (all_links_never_shrinks default_config Scenario.web _ _ _ _ default_round2).
Defined.

(** C9: at the head of every iteration, and when the loop has stopped,
    every URL in [failed_urls] is in [visited]; the step that records a
    failure adds the URL to [visited] as well, so the inclusion holds
    after every single result. *)
Theorem failed_urls_are_visited {lib : PyLib} (cfg : Config) (web : Web)
    (log : Log) (st : State) :
  run cfg web log st →
  failed_urls st ⊆ visited st ∧
  ∀ results, failed_urls (merge_results st results)
             ⊆ visited (merge_results st results).
Proof.
  intros Hrun%run_failed_visited. split; [done|].
  intros results. by apply failed_merge_results.
Qed.

Lemma failed_urls_are_visited_witness :
  run default_config Scenario.web Scenario.log3 Scenario.final ∧
  failed_urls Scenario.final ⊆ visited Scenario.final.
Proof.
  split; [exact default_run3 |].
  exact (proj1 (failed_urls_are_visited default_config Scenario.web _ _
                  default_run3)).
Defined.

(** C10: an iteration starts only while fewer than [MAX_PAGES] URLs are
    visited and adds at most [CONCURRENT_WORKERS] of them, so at the head
    of every iteration, and when the loop has stopped, the size of
    [visited] is below [MAX_PAGES + CONCURRENT_WORKERS]. *)
Theorem visited_overshoot_below_one_batch {lib : PyLib} (cfg : Config)
    (web : Web) (log : Log) (st : State) :
  0 < workers cfg →
  run cfg web log st →
  size (visited st) < max_pages cfg + workers cfg ∧
  ∀ batch results st',
    round cfg web st batch results st' →
    size (visited st) < max_pages cfg ∧
    length batch ≤ workers cfg ∧
    size (visited st') ≤ size (visited st) + workers cfg.
Proof.
  intros Hw Hrun. split; [by eapply run_visited_bound|].
  intros batch results st' Hr.
  destruct (round_visited_size _ _ _ _ _ _ Hr) as [Hlt Hle].
  split_and!; [done| |done].
  destruct (round_inv _ _ _ _ _ _ Hr) as (listing & _ & _ & -> & _).
  apply current_batch_length.
Qed.

Lemma visited_overshoot_below_one_batch_witness :
  0 < CONCURRENT_WORKERS ∧
  run default_config Scenario.web Scenario.log3 Scenario.final ∧
  size (visited Scenario.final) < MAX_PAGES + CONCURRENT_WORKERS.
Proof.
  assert (0 < workers default_config) as Hw by (vm_compute; lia).
  split_and!; [exact Hw | exact default_run3 |].
  exact (proj1 (visited_overshoot_below_one_batch default_config Scenario.web
                  _ _ Hw default_run3)).
Defined.

(** ** The record of failures *)

Lemma truthy_Some (err : option string) :
  truthy err = true ↔ ∃ msg, err = Some msg ∧ msg ≠ "".
Proof.
  destruct err as [msg|]; simpl.
  - rewrite negb_true_iff, String.eqb_neq. naive_solver.
  - naive_solver.
Qed.

Lemma failed_urls_merge_result (st : State) (r : Result) (url : string) :
  url ∈ failed_urls (merge_result st r) ↔
  url ∈ failed_urls st ∨ (res_url r = url ∧ truthy (res_error r) = true).
Proof.
  destruct r as [[url' links] err]. unfold merge_result, res_url, res_error.
  simpl. destruct (truthy err); simpl; set_solver.
Qed.

Lemma failed_urls_merge_results (results : list Result) (st : State)
    (url : string) :
  url ∈ failed_urls (merge_results st results) ↔
  url ∈ failed_urls st ∨
  ∃ r, r ∈ results ∧ res_url r = url ∧ truthy (res_error r) = true.
Proof.
  revert st. induction results as [|r rs IH]; intros st.
  - simpl. split; [by left|]. intros [?|(r & []%elem_of_nil & _)]. done.
  - unfold merge_results in *. simpl. rewrite IH, failed_urls_merge_result.
    split.
    + intros [[?|[??]]|(r' & ? & ? & ?)]; [by left| |].
      * right. exists r. split; [left|done].
      * right. exists r'. split; [by right|done].
    + intros [?|(r' & [->|?]%elem_of_cons & ? & ?)].
      * by left; left.
      * by left; right.
      * right. by exists r'.
Qed.

(** C3 (as stated) does not hold: the crawl keeps no failure reason.  Two
    results for the same URL that differ only in their message lead to the
    same state, so no reading of the state gives the message back. *)
Lemma failure_reason_not_recorded :
  ¬ ∃ reason : State → string → option string,
      ∀ (st : State) (url : string) (links : gset string) (msg : string),
        reason (merge_result st (url, links, Some msg)) url = Some msg.
Proof.
  intros [reason Hreason].
  pose proof (Hreason (init default_config) Scenario.B ∅
                "Timeout 7000ms exceeded.") as H1.
  pose proof (Hreason (init default_config) Scenario.B ∅
                "net::ERR_NAME_NOT_RESOLVED") as H2.
  change (merge_result (init default_config)
            (Scenario.B, ∅, Some "net::ERR_NAME_NOT_RESOLVED"))
    with (merge_result (init default_config)
            (Scenario.B, ∅, Some "Timeout 7000ms exceeded.")) in H2.
  rewrite H1 in H2. discriminate H2.
Qed.

(** C3 (amended): [failed_urls] is a set of URLs; no failure reason is
    kept.  In an iteration, the URL of every result that carries a
    non-empty error message is added to it; it holds nothing but what it
    held before and URLs of results that carry an error; nothing is ever
    removed from it.  A failure does not stop the iteration: every URL of
    the batch is merged into [visited]. *)
Theorem failed_urls_recorded {lib : PyLib} (cfg : Config) (web : Web)
    (st : State) (batch : list string) (results : list Result) (st' : State) :
  round cfg web st batch results st' →
  (∀ url links msg,
     (url, links, Some msg) ∈ results → msg ≠ "" → url ∈ failed_urls st') ∧
  (∀ url,
     url ∈ failed_urls st' →
     url ∈ failed_urls st ∨ ∃ links msg, (url, links, Some msg) ∈ results) ∧
  failed_urls st ⊆ failed_urls st' ∧
  visited st' = visited st ∪ list_to_set batch.
Proof.
  intros Hr.
  assert (∀ url, url ∈ failed_urls st' ↔
            url ∈ failed_urls st ∨
            ∃ r, r ∈ results ∧ res_url r = url ∧ truthy (res_error r) = true)
    as Hfailed.
  { destruct (round_inv _ _ _ _ _ _ Hr) as (listing & _ & _ & _ & _ & _ & ->).
    intros url. unfold loop_body.
    match goal with
    | |- context [report cfg ?X] =>
        destruct (report_sets cfg X) as (_ & _ & _ & ->)
    end.
    by rewrite failed_urls_merge_results. }
  split_and!.
  - intros url links msg Hin Hmsg. apply Hfailed. right.
    exists (url, links, Some msg). split_and!; [done..|].
    apply truthy_Some. by exists msg.
  - intros url [?|([[url' links] err] & Hin & Hurl & Herr)]%Hfailed; [by left|].
    right. unfold res_url, res_error in *. simpl in *. subst url'.
    apply truthy_Some in Herr as (msg & -> & _). by exists links, msg.
  - intros url Hurl. apply Hfailed. by left.
  - by eapply round_visited.
Qed.

Lemma failed_urls_recorded_witness :
  round default_config Scenario.web Scenario.st1
        [Scenario.A; Scenario.B] [Scenario.rA; Scenario.rB] Scenario.st2 ∧
  (Scenario.timeout_msg ≠ "" → Scenario.B ∈ failed_urls Scenario.st2) ∧
  failed_urls Scenario.st1 ⊆ failed_urls Scenario.st2 ∧
  visited Scenario.st2
    = visited Scenario.st1 ∪ list_to_set [Scenario.A; Scenario.B].
Proof.
  pose proof (failed_urls_recorded default_config Scenario.web _ _ _ _
                default_round2) as (Hrec & _ & Hmono & Hvis).
  split_and!; [exact default_round2 | | exact Hmono | exact Hvis].
  apply (Hrec Scenario.B ∅ Scenario.timeout_msg).
  right. left.
Defined.

(** ** What [all_links] collects *)

Lemma merge_result_links (seed : string) (st : State) (r : Result) :
  (truthy (res_error r) = true → res_links r = ∅) →
  seed ∉ all_links st →
  (seed ∈ visited st ∨ res_url r = seed) →
  (seed ∉ all_links (merge_result st r)) ∧
  seed ∈ visited (merge_result st r) ∧
  to_visit (merge_result st r) ⊆ to_visit st ∪ all_links (merge_result st r) ∧
  res_links r ⊆ to_visit (merge_result st r) ∪ visited (merge_result st r).
Proof.
  destruct r as [[url links] err]. unfold merge_result, res_url, res_links, res_error.
  simpl. intros Hlinks Hseed Hvis.
  destruct (truthy err); simpl.
  - rewrite Hlinks by done. set_solver.
  - split_and!; [set_solver..|].
    intros x Hx.
    destruct (decide (x ∈ visited st ∪ {[url]})); [set_solver|].
    destruct (decide (x ∈ to_visit st)); set_solver.
Qed.

Lemma frontier_step_subseteq (T V A T1 A1 U : gset string) (u seed : string) :
  T ∪ V ∪ ({[u]} ∪ U) ⊆ A ∪ {[seed]} → T1 ⊆ T ∪ A1 → A ⊆ A1 →
  T1 ∪ (V ∪ {[u]}) ∪ U ⊆ A1 ∪ {[seed]}.
Proof. intros H1 H2 H3. set_pointwise. Qed.

Lemma observed_step_subseteq (T V A L T1 V1 A1 T2 V2 A2 O : gset string)
    (seed : string) :
  L ⊆ T1 ∪ V1 →
  T1 ∪ V1 ⊆ A1 ∪ {[seed]} →
  A1 ⊆ A2 →
  T2 ∪ V2 ∪ O ⊆ A2 ∪ {[seed]} →
  T2 ∪ V2 ∪ (L ∪ O) ⊆ A2 ∪ {[seed]}.
Proof. intros H1 H2 H3 H4. set_pointwise. Qed.

Lemma merge_results_links (seed : string) (results : list Result) (st : State) :
  Forall (λ r, truthy (res_error r) = true → res_links r = ∅) results →
  seed ∉ all_links st →
  (seed ∈ visited st ∨ Forall (λ r, res_url r = seed) results) →
  to_visit st ∪ visited st ∪ list_to_set (map res_url results)
    ⊆ all_links st ∪ {[ seed ]} →
  (seed ∉ all_links (merge_results st results)) ∧
  to_visit (merge_results st results) ∪ visited (merge_results st results)
    ∪ ⋃ (map res_links results)
    ⊆ all_links (merge_results st results) ∪ {[ seed ]}.
Proof.
  revert st. induction results as [|r rs IH]; intros st Hshape Hseed Hvis Hsub.
  - split; [done|]. simpl in *. revert Hsub. clear. intros Hsub. set_pointwise.
  - apply Forall_cons in Hshape as [Hr Hrs].
    assert (seed ∈ visited st ∨ res_url r = seed) as Hvis'.
    { destruct Hvis as [?|[? _]%Forall_cons]; [by left | by right]. }
    destruct (merge_result_links seed st r Hr Hseed Hvis')
      as (Hseed1 & Hvis1 & Hto1 & Hlinks1).
    pose proof (visited_merge_result st r) as Hv1.
    pose proof (all_links_merge_result st r) as Ha1.
    assert (to_visit (merge_result st r) ∪ visited (merge_result st r)
              ∪ list_to_set (map res_url rs)
            ⊆ all_links (merge_result st r) ∪ {[seed]}) as Hsub1.
    { rewrite Hv1. by apply (frontier_step_subseteq (to_visit st) _ (all_links st)). }
    destruct (IH (merge_result st r) Hrs Hseed1 (or_introl Hvis1) Hsub1)
      as [Hseed2 Hsub2].
    change (merge_results st (r :: rs))
      with (merge_results (merge_result st r) rs).
    split; [done|].
    change (⋃ (map res_links (r :: rs)))
      with (res_links r ∪ ⋃ (map res_links rs)).
    apply (observed_step_subseteq (to_visit st) (visited st) (all_links st) _
             (to_visit (merge_result st r)) (visited (merge_result st r))
             (all_links (merge_result st r))); [done| | |done].
    + revert Hsub1. clear. intros Hsub1. set_pointwise.
    + apply all_links_merge_results.
Qed.

Lemma observed_round_subseteq (T V A O T2 V2 A2 L : gset string)
    (seed : string) :
  T ∪ V ∪ O ⊆ A ∪ {[seed]} → A ⊆ A2 → T2 ∪ V2 ∪ L ⊆ A2 ∪ {[seed]} →
  T2 ∪ V2 ∪ (L ∪ O) ⊆ A2 ∪ {[seed]}.
Proof. intros H1 H2 H3. set_pointwise. Qed.

Section collected_links.
Context {lib : PyLib} (cfg : Config) (web : Web).

Lemma listing_of_singleton (x : string) (listing : list string) :
  set_listing {[ x ]} listing → listing = [x].
Proof.
  intros [Hnd Hset].
  assert (∀ y, y ∈ listing ↔ y = x) as Hmem.
  { intros y. rewrite <-(elem_of_list_to_set (C:=gset string)), Hset.
    apply elem_of_singleton. }
  destruct listing as [|a [|b l]].
  - specialize (proj2 (Hmem x) eq_refl). by intros ?%elem_of_nil.
  - f_equal. apply Hmem. by left.
  - assert (a = x) as -> by (apply Hmem; by left).
    assert (b = x) as -> by (apply Hmem; right; by left).
    apply NoDup_cons in Hnd as [Hnot _]. destruct Hnot. by left.
Qed.

Lemma batch_in_listing (listing : list string) (url : string) :
  url ∈ current_batch cfg listing → url ∈ listing.
Proof. unfold current_batch. apply (subseteq_take (workers cfg) listing). Qed.

Lemma run_links_invariant (log : Log) (st : State) :
  run cfg web log st →
  (start_url cfg ∉ all_links st) ∧
  (start_url cfg ∈ visited st ∨ to_visit st = {[ start_url cfg ]}) ∧
  to_visit st ∪ visited st ∪ observed log ⊆ all_links st ∪ {[ start_url cfg ]}.
Proof.
  induction 1 as [|log st batch results st' _ (IHseed & IHvis & IHsub) Hr].
  - unfold init, observed. simpl. split_and!; [set_solver | by right | set_solver].
  - destruct (round_inv _ _ _ _ _ _ Hr)
      as (listing & _ & Hlist & -> & Hperm & Hshape & ->).
    pose proof (loop_body_visited cfg listing results st) as Hv.
    pose proof (loop_body_all_links cfg listing results st) as Ha.
    unfold loop_body in *.
    set (st1 := mkState (to_visit st ∖ list_to_set (current_batch cfg listing))
                  (visited st) (all_links st) (failed_urls st) (last_check st)) in *.
    destruct (report_sets cfg (merge_results st1 results)) as (Et & Ev & Ea & _).
    rewrite Et, Ev, Ea in *. clear Et Ev Ea.
    assert (list_to_set (current_batch cfg listing) ⊆ to_visit st) as Hbatch.
    { destruct Hlist as [_ <-]. intros x. rewrite !elem_of_list_to_set.
      apply batch_in_listing. }
    assert (list_to_set (map res_url results)
            =@{gset string} list_to_set (current_batch cfg listing)) as Hurls.
    { apply set_eq. intros x. by rewrite !elem_of_list_to_set, Hperm. }
    assert (start_url cfg ∈ visited st1
            ∨ Forall (λ r, res_url r = start_url cfg) results) as Hfirst.
    { destruct IHvis as [?|Hto]; [by left|]. right.
      rewrite Hto in Hlist. apply listing_of_singleton in Hlist as ->.
      apply Forall_forall. intros r Hin.
      assert (res_url r ∈ map res_url results) as Hmem
        by (apply list_elem_of_fmap; by exists r).
      rewrite Hperm in Hmem. apply batch_in_listing in Hmem.
      by apply list_elem_of_singleton in Hmem. }
    assert (to_visit st1 ∪ visited st1 ∪ list_to_set (map res_url results)
            ⊆ all_links st1 ∪ {[start_url cfg]}) as Hsub1.
    { rewrite Hurls. subst st1. cbn [to_visit visited all_links].
      revert Hbatch IHsub. clear. intros HU IHsub. set_pointwise. }
    destruct (merge_results_links (start_url cfg) results st1
                Hshape IHseed Hfirst Hsub1) as [Hseed' Hsub'].
    split_and!; [done | |].
    + destruct IHvis as [Hin|Hto].
      { left. rewrite Hv. apply elem_of_union. by left. }
      destruct results as [|r rs].
      * right. simpl in Hperm. apply Permutation_nil_l in Hperm.
        subst st1. rewrite <-Hperm. simpl. rewrite Hto. set_solver.
      * left. rewrite Hv. rewrite Hto in Hlist.
        apply listing_of_singleton in Hlist as ->.
        assert (res_url r ∈ current_batch cfg [start_url cfg]) as Hmem
          by (rewrite <-Hperm; by left).
        apply batch_in_listing, list_elem_of_singleton in Hmem.
        simpl. rewrite Hmem. set_solver.
    + unfold observed in *. simpl. rewrite map_app, union_list_app_L.
      fold (observed log).
      apply (observed_round_subseteq (to_visit st) (visited st) (all_links st));
        [exact IHsub | apply (all_links_merge_results results st1) | exact Hsub'].
Qed.

End collected_links.

(** C4 (as stated) does not hold: on a site whose second page links back
    to the seed, the seed URL is among the links the fetches return, and
    it is not in [all_links] when the loop stops. *)
Lemma seed_link_not_collected :
  ¬ ∀ (log : Log) (st : State),
      run default_config Backlink.web log st →
      loop_guard default_config st = false →
      observed log ⊆ all_links st.
Proof.
  intros Hclaim.
  pose proof backlink_run as Hrun.
  assert (loop_guard default_config Backlink.final = false) as Hstop
    by (vm_compute; reflexivity).
  specialize (Hclaim _ _ Hrun Hstop START_URL).
  assert (START_URL ∈ observed Backlink.log) as Hobs
    by (apply (bool_decide_unpack _); vm_compute; exact I).
  assert (START_URL ∉ all_links Backlink.final) as Hnot
    by (apply (bool_decide_unpack _); vm_compute; exact I).
  by apply Hnot, Hclaim.
Qed.

(** C4 (amended): at the head of every iteration, and when the loop has
    stopped, every link that a call of [process_page] has returned so far
    is in [all_links], except for the seed URL, which is never in
    [all_links]. *)
Theorem observed_links_collected {lib : PyLib} (cfg : Config) (web : Web)
    (log : Log) (st : State) :
  run cfg web log st →
  observed log ∖ {[ start_url cfg ]} ⊆ all_links st ∧
  start_url cfg ∉ all_links st.
Proof.
  intros (Hseed & _ & Hsub)%run_links_invariant. split; [|done].
  revert Hsub. clear. intros Hsub. set_pointwise.
Qed.

Lemma observed_links_collected_witness :
  run default_config Scenario.web Scenario.log3 Scenario.final ∧
  observed Scenario.log3 ∖ {[ START_URL ]} ⊆ all_links Scenario.final ∧
  START_URL ∉ all_links Scenario.final.
Proof.
  split; [exact default_run3 |].
  exact (observed_links_collected default_config Scenario.web _ _ default_run3).
Defined.

(** ** Termination *)

Lemma to_visit_merge_result (st : State) (r : Result) (x : string) :
  x ∈ to_visit (merge_result st r) → x ∈ to_visit st ∨ x ∉ visited st.
Proof.
  destruct r as [[url links] err]. unfold merge_result.
  destruct (truthy err); simpl; set_solver.
Qed.

Lemma to_visit_merge_results (results : list Result) (st : State) (x : string) :
  x ∈ to_visit (merge_results st results) → x ∈ to_visit st ∨ x ∉ visited st.
Proof.
  revert st. induction results as [|r rs IH]; intros st; [by left|].
  unfold merge_results in *. simpl. intros [Hx|Hx]%IH.
  - by apply to_visit_merge_result in Hx.
  - right. rewrite visited_merge_result in Hx. set_solver.
Qed.

Lemma progress_step (T V B T' : gset string) :
  B ⊆ T → B ≠ ∅ →
  (∀ x, x ∈ T' → x ∈ T ∖ B ∨ x ∉ V) →
  2 * size V - size (T ∩ V) < 2 * size (V ∪ B) - size (T' ∩ (V ∪ B)).
Proof.
  intros HB Hne HT'.
  assert (T' ∩ (V ∪ B) ⊆ (T ∩ V) ∖ B ∪ B ∖ V) as Hsub.
  { intros x [Hx1 Hx2]%elem_of_intersection. specialize (HB x).
    destruct (HT' x Hx1); set_unfold; tauto. }
  apply subseteq_size in Hsub.
  assert (size ((T ∩ V) ∖ B ∪ B ∖ V) = size ((T ∩ V) ∖ B) + size (B ∖ V)) as Hu.
  { apply size_union. intros x. set_unfold. tauto. }
  pose proof (size_difference_alt (T ∩ V) B) as Hd.
  assert ((T ∩ V) ∩ B = B ∩ V) as HD.
  { apply set_eq. intros x. specialize (HB x). set_unfold. tauto. }
  rewrite HD in Hd.
  assert (size B = size (B ∩ V) + size (B ∖ V)) as HsB.
  { assert (B = B ∩ V ∪ B ∖ V) as HBeq.
    { apply set_eq. intros x. set_unfold. destruct (decide (x ∈ V)); tauto. }
    rewrite HBeq at 1. apply size_union. intros x. set_unfold. tauto. }
  assert (0 < size B) as Hpos.
  { destruct (decide (size B = 0)) as [H0%size_empty_inv|]; [|lia].
    destruct Hne. by apply leibniz_equiv. }
  pose proof (size_union_alt V B) as HV.
  assert (size (T ∩ V) ≤ size V) as H1
    by (apply subseteq_size; set_unfold; tauto).
  assert (size (B ∩ V) ≤ size (T ∩ V)) as H2
    by (apply subseteq_size; intros x; specialize (HB x); set_unfold; tauto).
  assert (size (T' ∩ (V ∪ B)) ≤ size (V ∪ B)) as H3
    by (apply subseteq_size; set_unfold; tauto).
  lia.
Qed.

Section termination.
Context {lib : PyLib} (cfg : Config) (web : Web).

Lemma round_progress st batch results st' :
  0 < workers cfg →
  round cfg web st batch results st' → progress st < progress st'.
Proof.
  intros Hw Hr. pose proof (round_visited _ _ _ _ _ _ Hr) as Hv.
  destruct (round_inv _ _ _ _ _ _ Hr)
    as (listing & Hg & [Hnd Hset] & -> & _ & _ & ->).
  unfold progress. rewrite Hv. clear Hv Hr.
  apply loop_guard_true in Hg as [Hne _].
  apply progress_step.
  - rewrite <-Hset. intros x. rewrite !elem_of_list_to_set.
    unfold current_batch. apply (subseteq_take (workers cfg) listing).
  - destruct listing as [|u listing]; [by rewrite <-Hset in Hne|].
    unfold current_batch. destruct (workers cfg); [lia|]. simpl. set_solver.
  - intros x. unfold loop_body.
    destruct (report_sets cfg (merge_results
      (mkState (to_visit st ∖ list_to_set (current_batch cfg (listing)))
         (visited st) (all_links st) (failed_urls st) (last_check st)) results))
      as (-> & _).
    exact (to_visit_merge_results results
             (mkState (to_visit st ∖ list_to_set (current_batch cfg listing))
                (visited st) (all_links st) (failed_urls st) (last_check st)) x).
Qed.

Lemma run_length_progress log st :
  0 < workers cfg → run cfg web log st → length log ≤ progress st.
Proof.
  intros Hw. induction 1 as [|log st batch results st' _ IH Hr]; simpl; [lia|].
  pose proof (round_progress _ _ _ _ Hw Hr). lia.
Qed.

Lemma fetched_all (done : list string) :
  (∀ url, url ∈ done → ∃ r, fetched web url r) →
  ∃ results, Forall2 (fetched web) done results.
Proof.
  induction done as [|url done IH]; intros Hweb; [by exists []|].
  destruct (Hweb url) as [r Hr]; [by left|].
  destruct IH as [results IH]; [intros u Hu; apply Hweb; by right|].
  exists (r :: results). by constructor.
Qed.

Lemma round_exists (st : State) :
  (∀ url, url ∈ to_visit st → ∃ r, fetched web url r) →
  loop_guard cfg st = true →
  ∃ batch results st', round cfg web st batch results st'.
Proof.
  intros Hweb Hg.
  destruct (fetched_all (current_batch cfg (elements (to_visit st))))
    as [results Hres].
  { intros url Hin%(subseteq_take (workers cfg)). apply Hweb.
    by apply elem_of_elements. }
  eexists _, results, _.
  apply (round_intro cfg web st (elements (to_visit st))
           (current_batch cfg (elements (to_visit st)))); [done| |done|done].
  split; [apply NoDup_elements | apply list_to_set_elements_L].
Qed.

End termination.

(** C2 (amended): the loop always stops.  While its condition holds an
    iteration can be made (when every fetch of a URL of the frontier
    returns; a fetch that raises ends the call), and no run has
    [2 * (MAX_PAGES + CONCURRENT_WORKERS)] iterations or more.  When it
    stops with a frontier that has not drained, [visited] has at least
    [MAX_PAGES] and fewer than [MAX_PAGES + CONCURRENT_WORKERS] elements. *)
Theorem crawl_stops_within_one_batch_of_cap {lib : PyLib} (cfg : Config)
    (web : Web) (log : Log) (st : State) :
  0 < workers cfg →
  run cfg web log st →
  length log < 2 * (max_pages cfg + workers cfg) ∧
  (loop_guard cfg st = true →
   (∀ url, url ∈ to_visit st → ∃ r, fetched web url r) →
   ∃ batch results st', round cfg web st batch results st') ∧
  (loop_guard cfg st = false → to_visit st ≠ ∅ →
   max_pages cfg ≤ size (visited st) < max_pages cfg + workers cfg).
Proof.
  intros Hw Hrun.
  pose proof (run_visited_bound cfg web log st Hw Hrun) as Hbound.
  split_and!.
  - pose proof (run_length_progress cfg web log st Hw Hrun) as Hlen.
    unfold progress in Hlen. lia.
  - intros Hg Hweb. by apply round_exists.
  - intros [Hempty|Hcap]%loop_guard_false Hne; [done | lia].
Qed.

Lemma crawl_stops_within_one_batch_of_cap_witness :
  0 < CONCURRENT_WORKERS ∧
  run default_config Scenario.web Scenario.log3 Scenario.final ∧
  length Scenario.log3 < 2 * (MAX_PAGES + CONCURRENT_WORKERS).
Proof.
  assert (0 < workers default_config) as Hw by (vm_compute; lia).
  split_and!; [exact Hw | exact default_run3 |].
  exact (proj1 (crawl_stops_within_one_batch_of_cap default_config
                  Scenario.web _ _ Hw default_run3)).
Defined.

(** ** Strings over a restricted alphabet *)

Section alphabet.
Import CPython.

Lemma all_chars_app (p : ascii → bool) (a b : string) :
  all_chars p (a +:+ b) = all_chars p a && all_chars p b.
Proof. induction a as [|c a IH]; simpl; [done | by rewrite IH, andb_assoc]. Qed.

Lemma all_chars_impl (p q : ascii → bool) (s : string) :
  (∀ c, p c = true → q c = true) →
  all_chars p s = true → all_chars q s = true.
Proof.
  intros Hpq. induction s as [|c s IH]; simpl; [done|].
  intros [Hc Hs]%andb_true_iff. by rewrite (Hpq c Hc), IH.
Qed.

Lemma lower_fixed (s : string) :
  all_chars (λ c, negb (isupper c)) s = true → lower s = s.
Proof.
  induction s as [|c s IH]; simpl; [done|].
  intros [Hc Hs]%andb_true_iff. unfold lower_char.
  apply negb_true_iff in Hc. by rewrite Hc, IH.
Qed.

Lemma lstrip_fixed (p : ascii → bool) (s : string) :
  all_chars (λ c, negb (p c)) s = true → lstrip p s = s.
Proof.
  destruct s as [|c s]; simpl; [done|].
  intros [Hc _]%andb_true_iff. apply negb_true_iff in Hc. by rewrite Hc.
Qed.

Lemma rstrip_fixed (p : ascii → bool) (s : string) :
  all_chars (λ c, negb (p c)) s = true → rstrip p s = s.
Proof.
  induction s as [|c s IH]; simpl; [done|].
  intros [Hc Hs]%andb_true_iff. apply negb_true_iff in Hc.
  rewrite IH by done. destruct s; [by rewrite Hc | done].
Qed.

Lemma remove_fixed (p : ascii → bool) (s : string) :
  all_chars (λ c, negb (p c)) s = true → remove p s = s.
Proof.
  induction s as [|c s IH]; simpl; [done|].
  intros [Hc Hs]%andb_true_iff. apply negb_true_iff in Hc. by rewrite Hc, IH.
Qed.

Lemma break_fixed (p : ascii → bool) (s : string) :
  all_chars (λ c, negb (p c)) s = true → break p s = (s, EmptyString).
Proof.
  induction s as [|c s IH]; simpl; [done|].
  intros [Hc Hs]%andb_true_iff. apply negb_true_iff in Hc. by rewrite Hc, IH.
Qed.

Lemma split_head_fixed (sep : ascii) (s : string) :
  all_chars (λ c, negb (Ascii.eqb c sep)) s = true → split_head sep s = s.
Proof.
  induction s as [|c s IH]; simpl; [done|].
  intros [Hc Hs]%andb_true_iff. apply negb_true_iff in Hc. by rewrite Hc, IH.
Qed.

Lemma all_chars_substring (p : ascii → bool) (s : string) (i k : nat) :
  all_chars p s = true → all_chars p (String.substring i k s) = true.
Proof.
  revert i k. induction s as [|c s IH]; intros i k Hs.
  - by destruct i, k.
  - simpl in Hs. apply andb_true_iff in Hs as [Hc Hs].
    destruct i as [|i]; [destruct k as [|k]|]; simpl; [done| |by apply IH].
    rewrite Hc. by apply IH.
Qed.

Lemma endswith_chars (p : ascii → bool) (s suffix : string) :
  endswith s suffix = true → all_chars p s = true → all_chars p suffix = true.
Proof.
  unfold endswith. destruct (Nat.leb _ _); [|done].
  intros <-%String.eqb_eq. apply all_chars_substring.
Qed.

Lemma prefix_chars (p : ascii → bool) (d s : string) :
  String.prefix d s = true → all_chars p s = true → all_chars p d = true.
Proof.
  revert s. induction d as [|a d IH]; intros [|b s]; simpl; try done.
  destruct (ascii_dec a b) as [->|]; [|done].
  intros Hd [Hb Hs]%andb_true_iff. by rewrite Hb, (IH s).
Qed.

Lemma contains_chars (p : ascii → bool) (d s : string) :
  contains d s = true → all_chars p s = true → all_chars p d = true.
Proof.
  induction s as [|b s IH]; intros Hd Hs.
  - change (contains d EmptyString)
      with (startswith EmptyString d || false) in Hd.
    rewrite orb_false_r in Hd. by apply (prefix_chars p d EmptyString).
  - change (contains d (String b s))
      with (startswith (String b s) d || contains d s) in Hd.
    apply orb_true_iff in Hd as [Hd|Hd].
    + by apply (prefix_chars p d (String b s)).
    + simpl in Hs. apply andb_true_iff in Hs as [_ Hs]. by apply IH.
Qed.

Lemma digits_of_uint (d : Decimal.uint) :
  all_chars isdigit (DecimalString.NilEmpty.string_of_uint d) = true.
Proof. induction d; simpl; by rewrite ?IHd. Qed.

Lemma digits_of_N (n : N) :
  all_chars isdigit (DecimalString.NilZero.string_of_uint (N.to_uint n)) = true.
Proof.
  unfold DecimalString.NilZero.string_of_uint.
  destruct (N.to_uint n); try apply (digits_of_uint (_ _)); done.
Qed.

End alphabet.

(** ** The links of the endless site *)

Section chain_links.
Local Abbreviation lib_urlparse := (@urlparse cpython).
Import CPython.

(** A fact about every character, checked on the 256 of them. *)
Ltac each_char :=
  intros [[] [] [] [] [] [] [] []]; vm_compute; first [ reflexivity | discriminate ].

Lemma url_char_plain (c : ascii) :
  Chain.url_char c = true →
  negb (isspace c) && negb (isupper c) && negb (Nat.leb (code c) 32)
  && negb (Ascii.eqb c "009" || Ascii.eqb c "010" || Ascii.eqb c "013")
  && negb (Ascii.eqb "#" c) && negb (Ascii.eqb "?" c)
  && negb (Ascii.eqb c "#") && negb (Ascii.eqb c ";") = true.
Proof. revert c. each_char. Qed.

Lemma digit_is_url_char (c : ascii) : isdigit c = true → Chain.url_char c = true.
Proof. revert c. each_char. Qed.

Lemma digit_is_path_char (c : ascii) :
  isdigit c = true →
  negb (Ascii.eqb "#" c) && negb (Ascii.eqb "?" c) && negb (Ascii.eqb c ";")
  && negb (Ascii.eqb c ".") = true.
Proof. revert c. each_char. Qed.

Lemma chain_href_chars (ds : string) :
  all_chars isdigit ds = true → all_chars Chain.url_char (Chain.stem +:+ ds) = true.
Proof.
  intros Hds. rewrite all_chars_app. apply andb_true_iff. split.
  - by vm_compute.
  - revert Hds. apply all_chars_impl, digit_is_url_char.
Qed.

Lemma split_once_none (c : ascii) (s : string) :
  all_chars (λ d, negb (Ascii.eqb c d)) s = true → split_once c s = None.
Proof. intros Hs. unfold split_once. by rewrite break_fixed. Qed.

Lemma has_char_false (c : ascii) (s : string) :
  all_chars (λ d, negb (Ascii.eqb d c)) s = true → has_char c s = false.
Proof. intros Hs. unfold has_char. by rewrite Hs. Qed.

Lemma chain_path_chars (ds : string) :
  all_chars isdigit ds = true → all_chars Chain.path_char ("/p/" +:+ ds) = true.
Proof.
  intros Hds. rewrite all_chars_app. apply andb_true_iff. split.
  - by vm_compute.
  - revert Hds. apply all_chars_impl, digit_is_path_char.
Qed.

Ltac char_class H :=
  revert H; apply all_chars_impl;
  let c := fresh "c" in let Hc := fresh "Hc" in
  intros c Hc; unfold Chain.path_char in Hc;
  by repeat (apply andb_true_iff in Hc as [Hc ?]).

Lemma chain_href_parse (ds : string) :
  all_chars isdigit ds = true →
  CPython.urlparse (Chain.stem +:+ ds)
  = Return (mkParseResult "https" "yc.go.kr" ("/p/" +:+ ds) "" "" "").
Proof.
  intros Hds. pose proof (chain_href_chars ds Hds) as Hurl.
  pose proof (chain_path_chars ds Hds) as Hpath.
  unfold urlparse, urlsplit.
  rewrite lstrip_fixed
    by (revert Hurl; apply all_chars_impl; intros c Hc%url_char_plain;
        by repeat (apply andb_true_iff in Hc as [Hc ?])).
  rewrite remove_fixed
    by (revert Hurl; apply all_chars_impl; intros c Hc%url_char_plain;
        by repeat (apply andb_true_iff in Hc as [Hc ?])).
  change (split_scheme (Chain.stem +:+ ds))
    with ("https", "//yc.go.kr/p/" +:+ ds).
  cbv beta iota.
  change (startswith ("//yc.go.kr/p/" +:+ ds) "//") with true.
  cbv beta iota.
  change (splitnetloc ("//yc.go.kr/p/" +:+ ds)) with ("yc.go.kr", "/p/" +:+ ds).
  cbv beta iota.
  change (xorb (has_char "[" "yc.go.kr") (has_char "]" "yc.go.kr")) with false.
  unfold mbind, Py_bind, mret, Py_ret. cbv beta iota.
  rewrite (split_once_none "#") by char_class Hpath.
  rewrite (split_once_none "?") by char_class Hpath.
  rewrite (has_char_false ";") by char_class Hpath.
  rewrite andb_false_r. reflexivity.
Qed.

Lemma existsb_outside_alphabet (p : ascii → bool) (f : string → bool)
    (l : list string) :
  (∀ d, f d = true → all_chars p d = true) →
  forallb (λ d, negb (all_chars p d)) l = true →
  existsb f l = false.
Proof.
  intros Hf. induction l as [|d l IH]; simpl; [done|].
  intros [Hd Hl]%andb_true_iff. rewrite (IH Hl), orb_false_r.
  destruct (f d) eqn:Hfd; [|done]. by rewrite (Hf d Hfd) in Hd.
Qed.

Lemma chain_href_valid (ds : string) :
  all_chars isdigit ds = true →
  is_valid_link (Chain.stem +:+ ds) = Return true.
Proof.
  intros Hds. pose proof (chain_href_chars ds Hds) as Hurl.
  pose proof (chain_path_chars ds Hds) as Hpath.
  unfold is_valid_link.
  change (String.eqb (Chain.stem +:+ ds) "") with false. cbv iota.
  change (str_strip (Chain.stem +:+ ds)) with (strip (Chain.stem +:+ ds)).
  unfold strip.
  rewrite lstrip_fixed
    by (revert Hurl; apply all_chars_impl; intros c Hc%url_char_plain;
        by repeat (apply andb_true_iff in Hc as [Hc ?])).
  rewrite rstrip_fixed
    by (revert Hurl; apply all_chars_impl; intros c Hc%url_char_plain;
        by repeat (apply andb_true_iff in Hc as [Hc ?])).
  change (str_lower (Chain.stem +:+ ds)) with (lower (Chain.stem +:+ ds)).
  rewrite lower_fixed
    by (revert Hurl; apply all_chars_impl; intros c Hc%url_char_plain;
        by repeat (apply andb_true_iff in Hc as [Hc ?])).
  cbv zeta.
  change (existsb (startswith (Chain.stem +:+ ds))
            ["mailto:"; "javascript:"; "tel:"]) with false.
  cbv iota.
  change (lib_urlparse (Chain.stem +:+ ds))
    with (CPython.urlparse (Chain.stem +:+ ds)).
  rewrite (chain_href_parse ds Hds).
  unfold mbind, Py_bind, mret, Py_ret. cbv beta iota zeta.
  cbn [path query scheme netloc].
  rewrite (existsb_outside_alphabet Chain.path_char
             (endswith (("/p/" +:+ ds) +:+ "")) EXCLUDED_EXTENSIONS);
    [|intros d Hd; apply (endswith_chars _ _ _ Hd);
      rewrite all_chars_app, Hpath; reflexivity
     |by vm_compute].
  rewrite (existsb_outside_alphabet Chain.url_char
             (λ domain, contains domain (Chain.stem +:+ ds)) IGNORED_DOMAINS);
    [|intros d Hd; by apply (contains_chars _ _ _ Hd) | by vm_compute].
  reflexivity.
Qed.

Lemma chain_href_no_fragment (ds : string) :
  all_chars isdigit ds = true →
  split_head "#" (Chain.stem +:+ ds) = Chain.stem +:+ ds.
Proof.
  intros Hurl%chain_href_chars. apply split_head_fixed.
  revert Hurl. apply all_chars_impl. intros c Hc%url_char_plain.
  by repeat (apply andb_true_iff in Hc as [Hc ?]).
Qed.
End chain_links.

Section chain_pages.

Lemma to_uint_nonnil (n : N) : N.to_uint n ≠ Decimal.Nil.
Proof. destruct n as [|p]; [done | apply DecimalPos.Unsigned.to_uint_nonnil]. Qed.

Lemma chain_page_index (i : nat) : Chain.page_index (Chain.page i) = Some i.
Proof.
  unfold Chain.page_index, Chain.page.
  change (Chain.drop_prefix Chain.stem (Chain.stem +:+ ?ds)) with (Some ds).
  simpl. rewrite DecimalString.NilZero.usu by apply to_uint_nonnil.
  simpl. by rewrite DecimalN.Unsigned.of_to, Nat2N.id.
Qed.

Lemma chain_page_valid (i : nat) :
  is_valid_link (Chain.page i) = Return true ∧
  split_head "#" (Chain.page i) = Chain.page i.
Proof.
  unfold Chain.page. split.
  - apply chain_href_valid, digits_of_N.
  - apply chain_href_no_fragment, digits_of_N.
Qed.

Lemma page_with_single (href url : string) :
  is_valid_link href = Return true →
  split_head "#" href = href →
  page_result (page_with [href]) url = Some (url, {[ href ]}, None).
Proof.
  intros Hvalid Hsplit.
  unfold page_result, process_page, page_links, page_with. simpl.
  rewrite Hvalid. simpl. rewrite Hsplit. by rewrite (left_id_L ∅ (∪)).
Qed.

Lemma chain_page_result (i : nat) :
  page_result (Chain.pages (Chain.page i)) (Chain.page i)
  = Some (Chain.page i, {[ Chain.page (i + 16) ]}, None).
Proof.
  unfold Chain.pages.
  replace (String.eqb (Chain.page i) START_URL) with false by reflexivity.
  rewrite chain_page_index.
  destruct (chain_page_valid (i + 16)) as [Hvalid Hsplit].
  by apply page_with_single.
Qed.

Lemma chain_page_inj (i j : nat) : Chain.page i = Chain.page j → i = j.
Proof.
  intros Heq. apply (f_equal Chain.page_index) in Heq.
  rewrite !chain_page_index in Heq. by injection Heq.
Qed.

Lemma chain_page_not_seed (i : nat) : Chain.page i ≠ START_URL.
Proof.
  intros Heq. apply (f_equal (λ s, String.eqb s START_URL)) in Heq.
  by vm_compute in Heq.
Qed.

End chain_pages.

(** ** A run on the endless site *)

Section chain_run.

#[local] Instance chain_page_Inj : Inj (=) (=) Chain.page.
Proof. intros i j. apply chain_page_inj. Qed.

Lemma block_NoDup (a len : nat) : NoDup (Chain.block a len).
Proof. apply (NoDup_fmap_2 Chain.page), NoDup_seq. Qed.

Lemma elem_of_block (a len : nat) (url : string) :
  url ∈ Chain.block a len ↔ ∃ i, url = Chain.page i ∧ a ≤ i < a + len.
Proof.
  unfold Chain.block. rewrite list_elem_of_fmap.
  by setoid_rewrite elem_of_seq.
Qed.

Lemma block_app (a len1 len2 : nat) :
  Chain.block a (len1 + len2)
  = (Chain.block a len1 ++ Chain.block (a + len1) len2)%list.
Proof. unfold Chain.block. by rewrite seq_app, fmap_app. Qed.

Lemma block_results (a len : nat) :
  mapM (λ url, page_result (Chain.pages url) url) (Chain.block a len)
  = Some (Chain.result <$> seq a len).
Proof.
  apply mapM_Some. unfold Chain.block.
  apply Forall2_fmap, Forall_Forall2_diag, Forall_forall.
  intros i _. apply chain_page_result.
Qed.

Lemma size_seed_block (len : nat) :
  size ({[ START_URL ]} ∪ list_to_set (Chain.block 1 len) : gset string)
  = 1 + len.
Proof.
  rewrite size_union.
  - rewrite size_singleton, size_list_to_set by apply block_NoDup.
    unfold Chain.block. by rewrite length_fmap, length_seq.
  - intros url ->%elem_of_singleton (i & Hi & _)%elem_of_list_to_set%elem_of_block.
    by apply (chain_page_not_seed i).
Qed.

(** Merging the results of pages none of whose links has been seen. *)
Lemma merge_forward (idx : list nat) (st : State) :
  (∀ i, i ∈ idx → (Chain.page (i + 16) ∉ visited st) ∧
                  ∀ j, j ∈ idx → i + 16 ≠ j) →
  to_visit (merge_results st (Chain.result <$> idx))
  = to_visit st ∪ list_to_set ((λ i, Chain.page (i + 16)) <$> idx).
Proof.
  revert st. induction idx as [|i idx IH]; intros st Hfresh.
  - simpl. by rewrite (right_id_L ∅ (∪)).
  - change (merge_results st (Chain.result <$> i :: idx))
      with (merge_results (merge_result st (Chain.result i))
              (Chain.result <$> idx)).
    rewrite IH.
    + destruct (Hfresh i) as [Hi Hne]; [by left|].
      unfold Chain.result, merge_result. simpl.
      assert (Chain.page (i + 16) ≠ Chain.page i) as Hpi
        by (intros ?%chain_page_inj; lia).
      apply set_eq. intros x. set_unfold.
      clear IH Hfresh Hne.
      destruct (decide (x = Chain.page (i + 16))) as [->|]; [|tauto].
      destruct (decide (Chain.page (i + 16) ∈ to_visit st)); naive_solver.
    + intros j Hj. destruct (Hfresh j) as [Hvis Hne]; [by right|].
      split; [|intros j' Hj'; apply Hne; by right].
      rewrite visited_merge_result. unfold Chain.result, res_url. simpl.
      intros [?|Heq%elem_of_singleton]%elem_of_union; [done|].
      apply chain_page_inj in Heq. destruct (Hne i); [by left | done].
Qed.


Lemma collect_all_valid (hrefs : list string) (acc : gset string) :
  Forall (λ h, is_valid_link h = Return true ∧ split_head "#" h = h) hrefs →
  collect_valid_links hrefs acc = Return (acc ∪ list_to_set hrefs).
Proof.
  revert acc. induction hrefs as [|h hrefs IH]; intros acc Hall; simpl.
  - by rewrite (right_id_L ∅ (∪)).
  - apply Forall_cons in Hall as [[Hvalid Hsplit] Hall].
    rewrite Hvalid. simpl. rewrite Hsplit, IH by done.
    by rewrite (assoc_L (∪)).
Qed.

Lemma page_with_all_valid (hrefs : list string) (url : string) :
  Forall (λ h, is_valid_link h = Return true ∧ split_head "#" h = h) hrefs →
  page_result (page_with hrefs) url = Some (url, list_to_set hrefs, None).
Proof.
  intros Hall.
  unfold page_result, process_page, page_links, page_with. simpl.
  rewrite collect_all_valid by done. simpl. by rewrite (left_id_L ∅ (∪)).
Qed.

Lemma block_shift (a len : nat) :
  (λ i, Chain.page (i + 16)) <$> seq a len = Chain.block (16 + a) len.
Proof.
  unfold Chain.block.
  rewrite <-(fmap_add_seq 16 a len), <-list_fmap_compose.
  apply list_fmap_ext. intros _ i _. unfold compose. f_equal. lia.
Qed.

Lemma chain_seed_result :
  page_result (Chain.pages START_URL) START_URL
  = Some (START_URL, list_to_set (Chain.block 1 16), None).
Proof.
  change (Chain.pages START_URL) with (page_with (Chain.block 1 16)).
  apply page_with_all_valid, Forall_forall.
  intros h (i & -> & _)%elem_of_block. apply chain_page_valid.
Qed.

Lemma chain_first_round :
  ∃ results st,
    round default_config Chain.web (init default_config) [START_URL] results st ∧
    Chain.after 0 st.
Proof.
  exists [(START_URL, list_to_set (Chain.block 1 16), None)],
         (loop_body default_config [START_URL]
            [(START_URL, list_to_set (Chain.block 1 16), None)]
            (init default_config)).
  split.
  - apply (round_intro default_config Chain.web (init default_config)
             [START_URL] [START_URL]).
    + apply loop_guard_true. unfold init. cbn [to_visit visited]. split.
      * apply non_empty_singleton_L.
      * rewrite size_empty. change (max_pages default_config) with MAX_PAGES.
        unfold MAX_PAGES. lia.
    + split; [apply NoDup_singleton | apply (list_to_set_singleton_L START_URL)].
    + reflexivity.
    + apply Forall2_fetched_site, mapM_Some.
      constructor; [apply chain_seed_result | constructor].
  - unfold Chain.after, loop_body.
    match goal with
    | |- context [report default_config ?X] =>
        destruct (report_sets default_config X) as (-> & -> & _)
    end.
    change (current_batch default_config [START_URL]) with [START_URL].
    unfold merge_results, merge_result, init.
    cbn [foldl truthy to_visit visited start_url default_config].
    assert (START_URL ∉ (list_to_set (Chain.block 1 16) : gset string)) as Hseed.
    { intros (i & Hi & _)%elem_of_list_to_set%elem_of_block.
      by apply (chain_page_not_seed i). }
    replace (16 * 0 + 1) with 1 by lia. replace (16 * 0) with 0 by lia.
    change (Chain.block 1 0) with (@nil string).
    generalize dependent (list_to_set (C:=gset string) (Chain.block 1 16)).
    intros L HL. split; apply set_eq; intros x; set_unfold;
      destruct (decide (x = START_URL)) as [->|]; tauto.
Qed.

Lemma chain_next_round (k : nat) (st : State) :
  16 * k + 1 < MAX_PAGES →
  Chain.after k st →
  ∃ batch results st',
    round default_config Chain.web st batch results st' ∧
    Chain.after (S k) st'.
Proof.
  intros Hk [Hto Hvis].
  assert (current_batch default_config (Chain.block (16 * k + 1) 16)
          = Chain.block (16 * k + 1) 16) as Hbatch.
  { unfold current_batch. apply take_ge. unfold Chain.block.
    rewrite length_fmap, length_seq. done. }
  exists (Chain.block (16 * k + 1) 16),
         (Chain.result <$> seq (16 * k + 1) 16),
         (loop_body default_config (Chain.block (16 * k + 1) 16)
            (Chain.result <$> seq (16 * k + 1) 16) st).
  split.
  - rewrite <-Hbatch at 1.
    apply (round_intro default_config Chain.web st
             (Chain.block (16 * k + 1) 16) (Chain.block (16 * k + 1) 16)).
    + apply loop_guard_true. split.
      * rewrite Hto. intros Hempty.
        assert (Chain.page (16 * k + 1) ∈ (∅ : gset string)) as Hin; [|set_solver].
        rewrite <-Hempty. apply elem_of_list_to_set, elem_of_block.
        exists (16 * k + 1). split; [done | lia].
      * rewrite Hvis, size_seed_block.
        change (max_pages default_config) with MAX_PAGES. lia.
    + split; [apply block_NoDup | done].
    + by rewrite Hbatch.
    + apply Forall2_fetched_site. apply block_results.
  - split.
    + unfold loop_body.
      match goal with
      | |- context [report default_config ?X] =>
          destruct (report_sets default_config X) as (-> & _)
      end.
      rewrite merge_forward.
      * cbn [to_visit]. rewrite Hbatch, Hto.
        replace (list_to_set (Chain.block (16 * k + 1) 16)
                 ∖ list_to_set (Chain.block (16 * k + 1) 16))
          with (∅ : gset string)
          by (apply set_eq; intros x; set_unfold; tauto).
        rewrite (left_id_L ∅ (∪)), block_shift.
        assert (16 * S k + 1 = 16 + (16 * k + 1)) as Harith by lia.
        rewrite Harith. reflexivity.
      * intros i [Hi1 Hi2]%elem_of_seq. cbn [visited]. split.
        -- rewrite Hvis.
           intros [Hs%elem_of_singleton|(j & Hj & Hj')%elem_of_list_to_set%elem_of_block]%elem_of_union.
           ++ by apply (chain_page_not_seed (i + 16)).
           ++ apply chain_page_inj in Hj. lia.
        -- intros j [Hj1 Hj2]%elem_of_seq. lia.
    + rewrite loop_body_visited, <-list_fmap_compose.
      change (res_url ∘ Chain.result) with Chain.page.
      fold (Chain.block (16 * k + 1) 16).
      replace (16 * S k) with (16 * k + 16) by lia.
      rewrite block_app, list_to_set_app_L, Hvis.
      replace (1 + 16 * k) with (16 * k + 1) by lia.
      by rewrite (assoc_L (∪)).
Qed.

Lemma chain_run (k : nat) :
  16 * k ≤ MAX_PAGES →
  ∃ log st, run default_config Chain.web log st ∧ Chain.after k st.
Proof.
  induction k as [|k IH]; intros Hk.
  - destruct chain_first_round as (results & st & Hr & Hst).
    exists [([START_URL], results)], st. split; [|done].
    econstructor; [constructor | done].
  - destruct IH as (log & st & Hrun & Hst); [lia|].
    destruct (chain_next_round k st) as (batch & results & st' & Hr & Hst');
      [lia | done |].
    exists ((batch, results) :: log), st'. split; [|done]. by econstructor.
Qed.

End chain_run.

(** C2 (as stated) does not hold: with the constants of the module, on a
    site where the seed links to 16 pages and every page links to one new
    page, the loop stops by the cap, with a frontier of 16 URLs, and
    [visited] has 80001 elements, one more than [MAX_PAGES]. *)
Lemma cap_is_overshot :
  ¬ ∀ (web : Web) (log : Log) (st : State),
      run default_config web log st →
      loop_guard default_config st = false →
      to_visit st ≠ ∅ →
      size (visited st) = MAX_PAGES.
Proof.
  intros Hclaim.
  destruct (chain_run (Z.to_nat 5000)) as (log & st & Hrun & Hto & Hvis);
    [unfold MAX_PAGES; lia|].
  assert (size (visited st) = MAX_PAGES + 1) as Hsize.
  { rewrite Hvis, size_seed_block. unfold MAX_PAGES. lia. }
  specialize (Hclaim Chain.web log st Hrun).
  rewrite Hsize in Hclaim. assert (MAX_PAGES + 1 = MAX_PAGES); [|lia].
  apply Hclaim.
  - apply loop_guard_false. right.
    change (max_pages default_config) with MAX_PAGES. lia.
  - rewrite Hto. intros Hempty.
    assert (Chain.page (16 * Z.to_nat 5000 + 1) ∈ (∅ : gset string)) as Hin;
      [|by apply not_elem_of_empty in Hin].
    rewrite <-Hempty. apply elem_of_list_to_set, elem_of_block.
    exists (16 * Z.to_nat 5000 + 1). split; [done | lia].
Qed.

(** * Further properties of the three functions *)

(** ** More rules of the filter *)

Section filter_rules.
Context {lib : PyLib}.

(** X1: an href that, once stripped and lower-cased, starts with
    [mailto:], [javascript:] or [tel:] is rejected, and [urlparse] is not
    consulted: the answer is [False] whatever [urlparse] would do with
    it. *)
Theorem special_scheme_is_invalid (href : string) (p : string) :
  p ∈ ["mailto:"; "javascript:"; "tel:"] →
  startswith (str_lower (str_strip href)) p = true →
  is_valid_link href = Return false.
Proof.
  intros Hp Hstart. unfold is_valid_link.
  destruct (String.eqb href ""); [done|].
  assert (existsb (startswith (str_lower (str_strip href)))
            ["mailto:"; "javascript:"; "tel:"] = true) as ->; [|done].
  apply existsb_exists. exists p. split; [by apply list_elem_of_In | done].
Qed.

(** X2: an href that [urlparse] accepts and that contains an entry of
    [IGNORED_DOMAINS] anywhere in its stripped, lower-cased text is
    rejected, whatever its host is. *)
Theorem ignored_domain_is_invalid (href : string) (parsed : ParseResult)
    (domain : string) :
  urlparse (str_lower (str_strip href)) = Return parsed →
  domain ∈ IGNORED_DOMAINS →
  contains domain (str_lower (str_strip href)) = true →
  is_valid_link href = Return false.
Proof.
  intros Hparse Hdom Hin. unfold is_valid_link.
  destruct (String.eqb href ""); [done|].
  destruct (existsb _ ["mailto:"; "javascript:"; "tel:"]); [done|].
  rewrite Hparse. unfold mbind, Py_bind.
  destruct (existsb _ EXCLUDED_EXTENSIONS); [done|].
  destruct (_ && _); [done|].
  assert (existsb (λ d, contains d (str_lower (str_strip href)))
            IGNORED_DOMAINS = true) as ->; [|done].
  apply existsb_exists. exists domain. split; [by apply list_elem_of_In | done].
Qed.

Lemma is_valid_link_true (href : string) :
  is_valid_link href = Return true →
  href ≠ "" ∧
  ∃ parsed,
    urlparse (str_lower (str_strip href)) = Return parsed ∧
    contains BASE_DOMAIN (netloc parsed) = true ∧
    scheme parsed ∈ [""; "http"; "https"] ∧
    (∀ p, p ∈ ["mailto:"; "javascript:"; "tel:"] →
          startswith (str_lower (str_strip href)) p = false) ∧
    (∀ ext, ext ∈ EXCLUDED_EXTENSIONS →
            endswith (path parsed +:+ query parsed) ext = false) ∧
    (∀ domain, domain ∈ IGNORED_DOMAINS →
               contains domain (str_lower (str_strip href)) = false).
Proof.
  unfold is_valid_link.
  destruct (String.eqb href "") eqn:Hempty; [done|].
  apply String.eqb_neq in Hempty.
  destruct (existsb _ ["mailto:"; "javascript:"; "tel:"]) eqn:Hpre; [done|].
  destruct (urlparse (str_lower (str_strip href))) as [parsed|e|b] eqn:Hparse;
    [|done..].
  unfold mbind, Py_bind.
  destruct (existsb _ EXCLUDED_EXTENSIONS) eqn:Hext; [done|].
  destruct (_ && _) eqn:Hscheme; [done|].
  destruct (existsb _ IGNORED_DOMAINS) eqn:Hign; [done|].
  intros [= Hbase]. split; [done|]. exists parsed.
  split_and!; [done | done | | | |].
  - apply andb_false_iff in Hscheme as [Hs|Hs].
    + apply negb_false_iff, String.eqb_eq in Hs. rewrite Hs. by left.
    + apply negb_false_iff in Hs. unfold str_in in Hs.
      apply existsb_exists in Hs as (x & Hx%list_elem_of_In & ->%String.eqb_eq).
      by right.
  - intros p Hp%list_elem_of_In.
    destruct (startswith _ p) eqn:Hsp; [|done].
    assert (existsb (startswith (str_lower (str_strip href)))
              ["mailto:"; "javascript:"; "tel:"] = true) as Hcontra
      by (apply existsb_exists; by exists p).
    congruence.
  - intros ext Hin%list_elem_of_In.
    destruct (endswith _ ext) eqn:He; [|done].
    assert (existsb (endswith (path parsed +:+ query parsed))
              EXCLUDED_EXTENSIONS = true) as Hcontra
      by (apply existsb_exists; by exists ext).
    congruence.
  - intros d Hin%list_elem_of_In.
    destruct (contains d _) eqn:Hd; [|done].
    assert (existsb (λ d, contains d (str_lower (str_strip href)))
              IGNORED_DOMAINS = true) as Hcontra
      by (apply existsb_exists; by exists d).
    congruence.
Qed.

(** X3: what the filter accepts.  When [is_valid_link] returns [True],
    the href is not empty, [urlparse] has parsed its stripped, lower-cased
    text, the host contains [BASE_DOMAIN], the scheme is absent, [http] or
    [https], and none of the three lists has a match. *)
Theorem valid_link_sound (href : string) :
  is_valid_link href = Return true →
  href ≠ "" ∧
  ∃ parsed,
    urlparse (str_lower (str_strip href)) = Return parsed ∧
    contains BASE_DOMAIN (netloc parsed) = true ∧
    scheme parsed ∈ [""; "http"; "https"] ∧
    (∀ p, p ∈ ["mailto:"; "javascript:"; "tel:"] →
          startswith (str_lower (str_strip href)) p = false) ∧
    (∀ ext, ext ∈ EXCLUDED_EXTENSIONS →
            endswith (path parsed +:+ query parsed) ext = false) ∧
    (∀ domain, domain ∈ IGNORED_DOMAINS →
               contains domain (str_lower (str_strip href)) = false).
Proof. apply is_valid_link_true. Qed.

(** X4: the filter has no exception of its own.  It raises exactly when
    the href is not empty, does not start with one of the three special
    schemes, and [urlparse] raises on its stripped, lower-cased text; the
    exception is the one of [urlparse]. *)
Theorem filter_raises_only_from_urlparse (href : string) (e : PyExc) :
  is_valid_link href = Raise e ↔
  href ≠ "" ∧
  existsb (startswith (str_lower (str_strip href)))
    ["mailto:"; "javascript:"; "tel:"] = false ∧
  urlparse (str_lower (str_strip href)) = Raise e.
Proof.
  unfold is_valid_link.
  destruct (String.eqb href "") eqn:Hempty.
  { apply String.eqb_eq in Hempty. split; [done | by intros [? _]]. }
  apply String.eqb_neq in Hempty.
  destruct (existsb _ ["mailto:"; "javascript:"; "tel:"]);
    [split; [done | by intros (_ & ? & _)]|].
  destruct (urlparse (str_lower (str_strip href))) as [parsed|e'|b];
    unfold mbind, Py_bind.
  - destruct (existsb _ EXCLUDED_EXTENSIONS);
      [split; [done | by intros (_ & _ & ?)]|].
    destruct (_ && _); [split; [done | by intros (_ & _ & ?)]|].
    destruct (existsb _ IGNORED_DOMAINS); split; (done || by intros (_ & _ & ?)).
  - split; [by intros [= ->] | by intros (_ & _ & [= ->])].
  - split; [done | by intros (_ & _ & ?)].
Qed.

End filter_rules.

Lemma special_scheme_is_invalid_witness :
  "javascript:" ∈ ["mailto:"; "javascript:"; "tel:"] ∧
  startswith (str_lower (str_strip "  JavaScript:void(0) ")) "javascript:" = true ∧
  is_valid_link "  JavaScript:void(0) " = Return false.
Proof.
  assert ("javascript:" ∈ ["mailto:"; "javascript:"; "tel:"]) as Hp
    by (right; left).
  assert (startswith (str_lower (str_strip "  JavaScript:void(0) "))
            "javascript:" = true) as Hs by (vm_compute; reflexivity).
  split_and!; [exact Hp | exact Hs |].
  exact (special_scheme_is_invalid "  JavaScript:void(0) " "javascript:" Hp Hs).
Defined.

Lemma ignored_domain_is_invalid_witness :
  urlparse (str_lower (str_strip "https://yc.go.kr/email.do"))
    = Return (mkParseResult "https" "yc.go.kr" "/email.do" "" "" "") ∧
  "mail." ∈ IGNORED_DOMAINS ∧
  contains "mail." (str_lower (str_strip "https://yc.go.kr/email.do")) = true ∧
  is_valid_link "https://yc.go.kr/email.do" = Return false.
Proof.
  assert (urlparse (str_lower (str_strip "https://yc.go.kr/email.do"))
          = Return (mkParseResult "https" "yc.go.kr" "/email.do" "" "" ""))
    as Hparse by (vm_compute; reflexivity).
  assert ("mail." ∈ IGNORED_DOMAINS) as Hdom
    by (apply (bool_decide_unpack _); vm_compute; exact I).
  assert (contains "mail." (str_lower (str_strip "https://yc.go.kr/email.do"))
          = true) as Hin by (vm_compute; reflexivity).
  split_and!; [exact Hparse | exact Hdom | exact Hin |].
  exact (ignored_domain_is_invalid "https://yc.go.kr/email.do" _ "mail."
           Hparse Hdom Hin).
Defined.

Lemma valid_link_sound_witness :
  is_valid_link "https://yc.go.kr/page?x=1#frag" = Return true ∧
  ∃ parsed,
    urlparse (str_lower (str_strip "https://yc.go.kr/page?x=1#frag"))
      = Return parsed ∧
    contains BASE_DOMAIN (netloc parsed) = true ∧
    scheme parsed ∈ [""; "http"; "https"].
Proof.
  assert (is_valid_link "https://yc.go.kr/page?x=1#frag" = Return true) as Hv
    by (vm_compute; reflexivity).
  split; [exact Hv|].
  destruct (valid_link_sound "https://yc.go.kr/page?x=1#frag" Hv)
    as (_ & parsed & Hp & Hb & Hs & _).
  exists parsed. by split_and!.
Defined.

Lemma filter_raises_only_from_urlparse_witness :
  urlparse (str_lower (str_strip "http://[::1/x"))
    = Raise (Exception "Invalid IPv6 URL") ∧
  is_valid_link "http://[::1/x" = Raise (Exception "Invalid IPv6 URL").
Proof.
  assert (urlparse (str_lower (str_strip "http://[::1/x"))
          = Raise (Exception "Invalid IPv6 URL")) as Hp
    by (vm_compute; reflexivity).
  split; [exact Hp|].
  apply (proj2 (filter_raises_only_from_urlparse "http://[::1/x"
                  (Exception "Invalid IPv6 URL"))).
  split_and!; [discriminate | vm_compute; reflexivity | exact Hp].
Defined.

(** ** The links a page yields *)

Lemma split_head_no_sep (sep : ascii) (s : string) :
  contains (String sep "") (split_head sep s) = false.
Proof.
  induction s as [|c s IH]; simpl; [done|].
  destruct (Ascii.eqb c sep) eqn:Hc; simpl; [done|].
  rewrite IH, orb_false_r. unfold startswith. simpl.
  destruct (ascii_dec sep c) as [->|]; [|done].
  by rewrite Ascii.eqb_refl in Hc.
Qed.

Lemma with_context_returns {A} (enter exit : Py unit) (body : Py A) (a : A) :
  with_context enter exit body = Return a → body = Return a.
Proof.
  unfold with_context.
  destruct enter as [[]|?|?]; [|done..]. by destruct body, exit.
Qed.

Section page_facts.
Context {lib : PyLib}.

Lemma collect_valid_links_elem (hrefs : list string) (acc links : gset string) :
  collect_valid_links hrefs acc = Return links →
  ∀ link, link ∈ links ↔ link ∈ acc ∨ kept hrefs link.
Proof.
  revert acc. induction hrefs as [|href hrefs IH]; intros acc; simpl.
  - intros [= <-] link. split; [by left|].
    intros [?|(? & []%elem_of_nil & _)]. done.
  - destruct (is_valid_link href) as [ok|e|b] eqn:Hok; [|done..].
    unfold mbind, Py_bind. intros Hrest link.
    rewrite (IH _ Hrest link). unfold kept. destruct ok.
    + rewrite elem_of_union, elem_of_singleton. split.
      * intros [[?| ->]|(h & ? & ? & ?)]; [by left | right | right].
        -- exists href. split_and!; [left | done..].
        -- exists h. split_and!; [by right | done..].
      * intros [?|(h & [-> |?]%elem_of_cons & ? & ?)].
        -- by left; left.
        -- by left; right.
        -- right. by exists h.
    + split.
      * intros [?|(h & ? & ? & ?)]; [by left|].
        right. exists h. split_and!; [by right | done..].
      * intros [?|(h & [-> |?]%elem_of_cons & Hv & ?)]; [by left | congruence |].
        right. by exists h.
Qed.

Lemma collect_valid_links_returns (hrefs : list string) (acc : gset string) :
  Forall (λ href, ∃ ok, is_valid_link href = Return ok) hrefs →
  ∃ links, collect_valid_links hrefs acc = Return links.
Proof.
  intros Hall. revert acc.
  induction Hall as [|href hrefs [ok Hok] _ IH]; intros acc; simpl.
  - by exists acc.
  - rewrite Hok. apply IH.
Qed.

Lemma collect_valid_links_raises (before after : list string) (href : string)
    (e : PyExc) (acc : gset string) :
  Forall (λ href, ∃ ok, is_valid_link href = Return ok) before →
  is_valid_link href = Raise e →
  collect_valid_links (before ++ href :: after)%list acc = Raise e.
Proof.
  intros Hall Hraise. revert acc.
  induction Hall as [|h hs [ok Hok] _ IH]; intros acc; simpl.
  - by rewrite Hraise.
  - rewrite Hok. apply IH.
Qed.

(** X5: when every browser call returns and the filter returns on every
    href of the page, [process_page] returns [(url, links, None)], and
    [links] holds exactly the accepted hrefs, each cut at its first [#]
    and otherwise as the page has it. *)
Theorem loaded_page_links (pw : Session) (url : string) (hrefs : list string) :
  loads pw url hrefs →
  Forall (λ href, ∃ ok, is_valid_link href = Return ok) hrefs →
  ∃ links,
    process_page pw url = Return (url, links, None) ∧
    ∀ link, link ∈ links ↔ kept hrefs link.
Proof.
  intros Hloads Hall. rewrite (loads_process_page _ _ _ Hloads).
  destruct (collect_valid_links_returns hrefs ∅ Hall) as [links Hlinks].
  rewrite Hlinks. exists links. split; [done|].
  intros link. rewrite (collect_valid_links_elem _ _ _ Hlinks link).
  split; [intros [[]%not_elem_of_empty|?]; done | by right].
Qed.

(** X6: one href on which the filter raises costs the page all its links.
    When every browser call returns and the filter raises [e] on an href
    (and returns on those before it), [process_page] returns
    [(url, set(), str(e))], whatever the other hrefs are. *)
Theorem bad_href_discards_page (pw : Session) (url : string)
    (before after : list string) (href : string) (e : PyExc) :
  loads pw url (before ++ href :: after)%list →
  Forall (λ href, ∃ ok, is_valid_link href = Return ok) before →
  is_valid_link href = Raise e →
  process_page pw url = Return (url, ∅, Some (str_of_exc e)).
Proof.
  intros Hloads Hall Hraise. rewrite (loads_process_page _ _ _ Hloads).
  by rewrite (collect_valid_links_raises before after href e ∅ Hall Hraise).
Qed.

Lemma page_links_kept (pw : Session) (url : string) (links : gset string) :
  page_links pw url = Return links →
  ∃ hrefs, eval_on_selector_all pw = Return hrefs ∧
           ∀ link, link ∈ links → kept hrefs link.
Proof.
  unfold page_links.
  destruct (chromium_launch pw); [|done..].
  destruct (new_page pw); [|done..].
  destruct (goto pw url); [|done..].
  destruct (wait_for_load_state pw); [|done..].
  destruct (eval_on_selector_all pw) as [hrefs| |]; [|done..].
  destruct (page_close pw); [|done..].
  destruct (browser_close pw); [|done..].
  unfold mbind, Py_bind. intros Hlinks. exists hrefs. split; [done|].
  intros link [[]%not_elem_of_empty|?]%(collect_valid_links_elem _ _ _ Hlinks).
  done.
Qed.

Lemma process_page_kept (pw : Session) (url : string) (r : Result) :
  process_page pw url = Return r →
  ∀ link, link ∈ res_links r →
    ∃ hrefs, eval_on_selector_all pw = Return hrefs ∧ kept hrefs link.
Proof.
  intros Hp link Hin.
  destruct (process_page_cases pw url)
    as [(links & Hs & Hq)|[(e & _ & Hq)|(b & _ & Hq)]];
    rewrite Hq in Hp; [injection Hp as <-..|done].
  - apply with_context_returns, page_links_kept in Hs as (hrefs & He & Hk).
    exists hrefs. split; [done|]. by apply Hk.
  - by apply not_elem_of_empty in Hin.
Qed.

(** X7: whatever the browser does, every link in the triple that
    [process_page] returns is an href the page had, which the filter
    accepted, cut at its first [#]; no returned link contains a [#]. *)
Theorem returned_links_pass_filter (pw : Session) (url : string) (r : Result) :
  process_page pw url = Return r →
  ∀ link, link ∈ res_links r →
    contains "#" link = false ∧
    ∃ hrefs href,
      eval_on_selector_all pw = Return hrefs ∧ href ∈ hrefs ∧
      is_valid_link href = Return true ∧ link = split_head "#" href.
Proof.
  intros Hp link Hin.
  destruct (process_page_kept pw url r Hp link Hin)
    as (hrefs & He & href & Hh & Hv & ->).
  split; [apply split_head_no_sep|]. by exists hrefs, href.
Qed.

(** X8: a failure whose exception has an empty message is not counted as
    a failure.  [process_page] returns the error [''], which [if error:]
    takes for false: the URL is added to [visited] and to nothing else. *)
Theorem empty_message_failure_not_recorded (pw : Session) (url : string)
    (st : State) :
  with_context (pw_enter pw) (pw_exit pw) (page_links pw url)
    = Raise (Exception "") →
  ∃ r, process_page pw url = Return r ∧
       res_error r = Some "" ∧
       failed_urls (merge_result st r) = failed_urls st ∧
       visited (merge_result st r) = visited st ∪ {[ url ]} ∧
       to_visit (merge_result st r) = to_visit st ∧
       all_links (merge_result st r) = all_links st.
Proof.
  intros Hraise.
  destruct (process_page_cases pw url)
    as [(links & Hs & _)|[(e & Hs & Hp)|(b & Hs & _)]]; [congruence| |congruence].
  rewrite Hraise in Hs. injection Hs as <-.
  exists (url, ∅, Some ""). split; [done|].
  unfold merge_result. simpl. split_and!; [done..| |]; set_solver.
Qed.

End page_facts.

Lemma loads_page_with (hrefs : list string) (url : string) :
  loads (page_with hrefs) url hrefs.
Proof. by repeat split. Qed.

Lemma loaded_page_links_witness :
  ∃ links,
    process_page (page_with ["https://yc.go.kr/a.do#top"; "tel:054-000";
                             "https://yc.go.kr/a.do"]) START_URL
    = Return (START_URL, links, None) ∧
    ∀ link, link ∈ links ↔
      kept ["https://yc.go.kr/a.do#top"; "tel:054-000"; "https://yc.go.kr/a.do"]
           link.
Proof.
  apply (loaded_page_links _ START_URL _ (loads_page_with _ _)).
  repeat constructor; eexists; vm_compute; reflexivity.
Defined.

Lemma bad_href_discards_page_witness :
  process_page (page_with ["https://yc.go.kr/a.do"; "http://[::1/x";
                           "https://yc.go.kr/b.do"]) START_URL
  = Return (START_URL, ∅, Some "Invalid IPv6 URL").
Proof.
  apply (bad_href_discards_page _ START_URL ["https://yc.go.kr/a.do"]
           ["https://yc.go.kr/b.do"] "http://[::1/x"
           (Exception "Invalid IPv6 URL") (loads_page_with _ _)).
  - repeat constructor; eexists; vm_compute; reflexivity.
  - vm_compute; reflexivity.
Defined.

Lemma returned_links_pass_filter_witness :
  process_page (Scenario.pages Scenario.S) Scenario.S = Return Scenario.rS ∧
  Scenario.B ∈ res_links Scenario.rS ∧
  contains "#" Scenario.B = false.
Proof.
  assert (process_page (Scenario.pages Scenario.S) Scenario.S
          = Return Scenario.rS) as Hp.
  { apply process_page_result, (bool_decide_unpack _). vm_compute. exact I. }
  assert (Scenario.B ∈ res_links Scenario.rS) as Hin
    by (apply (bool_decide_unpack _); vm_compute; exact I).
  split_and!; [exact Hp | exact Hin |].
  exact (proj1 (returned_links_pass_filter _ _ _ Hp Scenario.B Hin)).
Defined.

Lemma empty_message_failure_not_recorded_witness :
  with_context (pw_enter (page_failing "")) (pw_exit (page_failing ""))
    (page_links (page_failing "") START_URL) = Raise (Exception "") ∧
  ∃ r, process_page (page_failing "") START_URL = Return r ∧
       failed_urls (merge_result (init default_config) r) = ∅.
Proof.
  assert (with_context (pw_enter (page_failing "")) (pw_exit (page_failing ""))
            (page_links (page_failing "") START_URL) = Raise (Exception ""))
    as Hraise by reflexivity.
  split; [exact Hraise|].
  destruct (empty_message_failure_not_recorded (page_failing "") START_URL
              (init default_config) Hraise) as (r & Hp & _ & Hf & _).
  exists r. split; [exact Hp | exact Hf].
Defined.

(** ** What a run hands to the workers *)

Lemma times_app (url : string) (l1 l2 : list string) :
  times url (l1 ++ l2)%list = times url l1 + times url l2.
Proof. unfold times. by rewrite filter_app, length_app. Qed.

Lemma times_absent (url : string) (l : list string) :
  url ∉ l → times url l = 0.
Proof.
  unfold times. induction l as [|a l IH]; [done|].
  intros [Hne Hl]%not_elem_of_cons. rewrite filter_cons.
  destruct (decide (a = url)); [congruence | by apply IH].
Qed.

Lemma times_NoDup (url : string) (l : list string) :
  NoDup l → url ∈ l → times url l = 1.
Proof.
  unfold times. induction 1 as [|a l Hnot Hnd IH]; [by intros ?%elem_of_nil|].
  rewrite filter_cons. intros [-> |Hin]%elem_of_cons.
  - rewrite decide_True by done. simpl. f_equal. by apply times_absent.
  - rewrite decide_False by (intros ->; done). by apply IH.
Qed.

Lemma to_visit_merge_result_mono (st : State) (r : Result) :
  to_visit st ⊆ to_visit (merge_result st r).
Proof.
  destruct r as [[url links] err]. unfold merge_result.
  destruct (truthy err); simpl; set_solver.
Qed.

Lemma to_visit_merge_results_mono (results : list Result) (st : State) :
  to_visit st ⊆ to_visit (merge_results st results).
Proof.
  revert st. induction results as [|r rs IH]; intros st; [done|].
  unfold merge_results in *. simpl.
  etrans; [apply (to_visit_merge_result_mono st r) | apply IH].
Qed.

Lemma last_check_merge_results (results : list Result) (st : State) :
  last_check (merge_results st results) = last_check st.
Proof.
  revert st. induction results as [|r rs IH]; intros st; [done|].
  unfold merge_results in *. simpl. rewrite IH.
  destruct r as [[url links] err]. unfold merge_result. by destruct (truthy err).
Qed.

Lemma accounted_merge_result (st : State) (r : Result) (U : gset string) :
  all_links st ⊆ to_visit st ∪ visited st ∪ U →
  all_links (merge_result st r)
    ⊆ to_visit (merge_result st r) ∪ visited (merge_result st r) ∪ U.
Proof.
  destruct r as [[url links] err]. unfold merge_result.
  destruct (truthy err); simpl; intros Hsub; set_pointwise.
Qed.

Lemma accounted_merge_results (results : list Result) (st : State)
    (U : gset string) :
  all_links st ⊆ to_visit st ∪ visited st ∪ U →
  all_links (merge_results st results)
    ⊆ to_visit (merge_results st results) ∪ visited (merge_results st results) ∪ U.
Proof.
  revert st. induction results as [|r rs IH]; intros st Hsub; [done|].
  unfold merge_results in *. simpl. by apply IH, accounted_merge_result.
Qed.

Lemma all_links_merge_results_from (results : list Result) (st : State) :
  all_links (merge_results st results)
    ⊆ all_links st ∪ ⋃ (map res_links results).
Proof.
  revert st. induction results as [|r rs IH]; intros st; simpl; [set_solver|].
  unfold merge_results in *. simpl. etrans; [apply IH|].
  destruct r as [[url links] err]. unfold merge_result, res_links.
  destruct (truthy err); simpl; set_pointwise.
Qed.

Lemma union_links_perm (results results' : list Result) :
  results ≡ₚ results' →
  ⋃ (map res_links results) =@{gset string} ⋃ (map res_links results').
Proof.
  intros Hp. apply set_eq. intros x. rewrite !elem_of_union_list.
  split; intros (X & (r & -> & Hr)%list_elem_of_fmap & Hx);
    exists (res_links r); (split; [|done]); apply list_elem_of_fmap;
    exists r; (split; [done|]); [by rewrite <-Hp | by rewrite Hp].
Qed.

Lemma frontier_visited_merge_result (st : State) (r : Result) :
  (truthy (res_error r) = true → res_links r = ∅) →
  to_visit (merge_result st r) ∪ visited (merge_result st r)
  = to_visit st ∪ visited st ∪ {[ res_url r ]} ∪ res_links r.
Proof.
  destruct r as [[url links] err]. unfold merge_result, res_url, res_links, res_error.
  simpl. intros Hshape. destruct (truthy err); simpl.
  - rewrite Hshape by done. set_solver.
  - apply set_eq. intros x. set_unfold.
    destruct (decide (x ∈ to_visit st)), (decide (x ∈ visited st)),
      (decide (x = url)); tauto.
Qed.

Lemma frontier_visited_merge_results (results : list Result) (st : State) :
  Forall (λ r, truthy (res_error r) = true → res_links r = ∅) results →
  to_visit (merge_results st results) ∪ visited (merge_results st results)
  = to_visit st ∪ visited st ∪ list_to_set (map res_url results)
    ∪ ⋃ (map res_links results).
Proof.
  intros Hshape. revert st.
  induction Hshape as [|r rs Hr _ IH]; intros st; simpl; [set_solver|].
  unfold merge_results in *. simpl.
  rewrite IH, (frontier_visited_merge_result st r Hr). set_solver.
Qed.

Section loop_facts.
Context {lib : PyLib} (cfg : Config) (web : Web).

(** What one iteration does to the frontier. *)
Lemma round_frontier st batch results st' :
  round cfg web st batch results st' →
  NoDup batch ∧
  (∀ x, x ∈ batch → x ∈ to_visit st) ∧
  (∀ x, x ∈ to_visit st → x ∉ batch → x ∈ to_visit st') ∧
  (∀ x, x ∈ to_visit st' → (x ∈ to_visit st ∧ x ∉ batch) ∨ x ∉ visited st).
Proof.
  intros (listing & _ & [Hnd Hset] & -> & _ & _ & ->)%round_inv.
  unfold loop_body.
  set (st1 := mkState (to_visit st ∖ list_to_set (current_batch cfg listing))
                (visited st) (all_links st) (failed_urls st) (last_check st)).
  destruct (report_sets cfg (merge_results st1 results)) as (-> & _).
  split_and!.
  - eapply sublist_NoDup; [exact Hnd | apply sublist_take].
  - intros x Hx%batch_in_listing. by rewrite <-Hset, elem_of_list_to_set.
  - intros x Hx Hnot. apply (to_visit_merge_results_mono results st1).
    subst st1. simpl. apply elem_of_difference.
    by rewrite elem_of_list_to_set.
  - intros x [Hx|Hx]%to_visit_merge_results; [left | by right].
    subst st1. simpl in Hx. apply elem_of_difference in Hx as [??].
    by rewrite elem_of_list_to_set in *.
Qed.

(** The state after an iteration, in terms that do not depend on the
    order of [results]. *)
Lemma round_sets st batch results st' :
  round cfg web st batch results st' →
  visited st' = visited st ∪ list_to_set batch ∧
  to_visit st' ∪ visited st'
  = to_visit st ∪ visited st ∪ ⋃ (map res_links results) ∧
  (∀ url, url ∈ failed_urls st' ↔
     url ∈ failed_urls st ∨
     ∃ r, r ∈ results ∧ res_url r = url ∧ truthy (res_error r) = true) ∧
  last_check st'
  = (if (Z.of_nat (check_interval cfg)
           <=? Z.of_nat (size (visited st')) - Z.of_nat (last_check st))%Z
     then size (visited st') else last_check st).
Proof.
  intros Hr. pose proof (round_visited _ _ _ _ _ _ Hr) as Hv.
  destruct (round_frontier _ _ _ _ Hr) as (_ & Hin & _ & _).
  destruct (round_inv _ _ _ _ _ _ Hr)
    as (listing & _ & _ & -> & Hperm & Hshape & ->).
  split; [done|]. revert Hv. unfold loop_body.
  set (st1 := mkState (to_visit st ∖ list_to_set (current_batch cfg listing))
                (visited st) (all_links st) (failed_urls st) (last_check st)).
  destruct (report_sets cfg (merge_results st1 results)) as (Et & Ev & _ & Ef).
  rewrite Et, Ev, Ef. intros Hv. split_and!.
  - rewrite (frontier_visited_merge_results results st1 Hshape).
    assert (list_to_set (map res_url results)
            =@{gset string} list_to_set (current_batch cfg listing)) as ->.
    { apply set_eq. intros x. by rewrite !elem_of_list_to_set, Hperm. }
    subst st1. simpl. apply set_eq. intros x. specialize (Hin x).
    revert Hin. clear. set_unfold.
    destruct (decide (x ∈ current_batch cfg listing)); tauto.
  - intros url. by rewrite failed_urls_merge_results.
  - pose proof (last_check_merge_results results st1) as Hl.
    subst st1. simpl in Hl. unfold report. rewrite Hl.
    by destruct (_ <=? _)%Z.
Qed.

Lemma round_one_url st url results st' :
  round cfg web st [url] results st' →
  ∃ listing r,
    set_listing (to_visit st) listing ∧ current_batch cfg listing = [url] ∧
    results = [r] ∧ fetched web url r ∧ st' = loop_body cfg listing [r] st.
Proof.
  inversion 1 as [listing done results' Hg Hl Hp Hf Hb Hres Hst].
  rewrite Hb in Hp. apply Permutation_singleton_r in Hp as ->.
  apply Forall2_cons_inv_l in Hf as (r & rs & Hr & ->%Forall2_nil_inv_l & ->).
  exists listing, r. by rewrite Hb.
Qed.

Lemma loop_body_one (listing : list string) (url : string) (r : Result)
    (st : State) :
  current_batch cfg listing = [url] →
  let st1 := mkState (to_visit st ∖ {[ url ]}) (visited st) (all_links st)
               (failed_urls st) (last_check st) in
  to_visit (loop_body cfg listing [r] st) = to_visit (merge_result st1 r) ∧
  visited (loop_body cfg listing [r] st) = visited (merge_result st1 r) ∧
  all_links (loop_body cfg listing [r] st) = all_links (merge_result st1 r) ∧
  failed_urls (loop_body cfg listing [r] st) = failed_urls (merge_result st1 r).
Proof.
  intros Hb st1. unfold loop_body. rewrite Hb.
  assert (list_to_set [url] =@{gset string} {[ url ]}) as -> by set_solver.
  apply report_sets.
Qed.

Lemma run_visited_dispatched log st :
  run cfg web log st → visited st = list_to_set (dispatched log).
Proof.
  induction 1 as [|log st batch results st' _ IH Hr]; [done|].
  rewrite (round_visited _ _ _ _ _ _ Hr), IH.
  unfold dispatched. simpl. rewrite list_to_set_app_L. set_solver.
Qed.

Lemma run_dispatch_count log st :
  run cfg web log st →
  ∀ url,
    (url ∉ visited st → times url (dispatched log) = 0) ∧
    (url ∈ visited st → url ∈ to_visit st → times url (dispatched log) = 1) ∧
    (url ∈ visited st → 1 ≤ times url (dispatched log) ≤ 2).
Proof.
  induction 1 as [|log st batch results st' _ IH Hr]; intros url.
  - unfold init. simpl. split_and!; [done | set_solver..].
  - destruct (IH url) as (IH0 & IH1 & IH2).
    destruct (round_frontier _ _ _ _ Hr) as (Hnd & Hin & _ & Hnew).
    pose proof (round_visited _ _ _ _ _ _ Hr) as Hv.
    assert (url ∈ visited st' ↔ url ∈ visited st ∨ url ∈ batch) as Hv'.
    { rewrite Hv, elem_of_union, elem_of_list_to_set. done. }
    change (dispatched ((batch, results) :: log))
      with (batch ++ dispatched log)%list.
    rewrite times_app.
    destruct (decide (url ∈ batch)) as [Hb|Hb].
    + rewrite (times_NoDup url batch Hnd Hb).
      destruct (decide (url ∈ visited st)) as [Hvis|Hvis].
      * rewrite (IH1 Hvis (Hin _ Hb)).
        split_and!; [intros []; apply Hv'; by left | | lia].
        intros _ [[_ ?]|?]%Hnew; done.
      * rewrite (IH0 Hvis).
        split_and!; [intros []; apply Hv'; by right | lia..].
    + rewrite (times_absent url batch Hb). simpl.
      split_and!.
      * intros Hnot. apply IH0. intros ?. apply Hnot, Hv'. by left.
      * intros [Hvis|?]%Hv' [[Ht _]|?]%Hnew; [by apply IH1 | done..].
      * intros [Hvis|?]%Hv'; [by apply IH2 | done].
Qed.

Lemma run_accounted log st :
  run cfg web log st → all_links st ⊆ to_visit st ∪ visited st.
Proof.
  induction 1 as [|log st batch results st' _ IH Hr]; [done|].
  destruct (round_inv _ _ _ _ _ _ Hr) as (listing & _ & _ & -> & Hperm & _ & ->).
  pose proof (loop_body_visited cfg listing results st) as Hv.
  unfold loop_body in *.
  set (st1 := mkState (to_visit st ∖ list_to_set (current_batch cfg listing))
                (visited st) (all_links st) (failed_urls st) (last_check st)) in *.
  destruct (report_sets cfg (merge_results st1 results)) as (Et & Ev & Ea & _).
  rewrite Et, Ev, Ea in *. clear Et Ev Ea.
  assert (list_to_set (map res_url results)
          =@{gset string} list_to_set (current_batch cfg listing)) as Hurls.
  { apply set_eq. intros x. by rewrite !elem_of_list_to_set, Hperm. }
  assert (all_links st1 ⊆ to_visit st1 ∪ visited st1
                          ∪ list_to_set (current_batch cfg listing)) as Hsub1.
  { subst st1. simpl. revert IH. clear. intros IH. intros x Hx.
    specialize (IH x Hx). set_unfold.
    destruct (decide (x ∈ current_batch cfg listing)); tauto. }
  apply (accounted_merge_results results) in Hsub1.
  rewrite Hv, Hurls. revert Hsub1. rewrite Hv, Hurls. clear.
  intros Hsub1. set_pointwise.
Qed.

Lemma run_account log st :
  run cfg web log st →
  to_visit st ∪ visited st = all_links st ∪ {[ start_url cfg ]}.
Proof.
  intros Hrun.
  destruct (run_links_invariant cfg web log st Hrun) as (Hseed & Hvis & Hsub).
  pose proof (run_accounted log st Hrun) as Hacc.
  apply set_eq. intros x. split.
  - intros Hx. apply Hsub. set_solver.
  - intros [Hx| ->%elem_of_singleton]%elem_of_union; [by apply Hacc|].
    destruct Hvis as [?| ->]; set_solver.
Qed.

Lemma run_all_links_eq log st :
  run cfg web log st →
  all_links st = (to_visit st ∪ visited st) ∖ {[ start_url cfg ]}.
Proof.
  intros Hrun. rewrite (run_account log st Hrun).
  destruct (run_links_invariant cfg web log st Hrun) as (Hseed & _).
  revert Hseed. clear. intros Hseed. set_solver.
Qed.

Lemma run_log_fetched log st :
  run cfg web log st →
  ∀ r, r ∈ concat (map snd log) → ∃ url, fetched web url r.
Proof.
  induction 1 as [|log st batch results st' _ IH Hr]; simpl.
  - by intros r ?%elem_of_nil.
  - intros r [Hin|Hin]%elem_of_app; [|by apply IH].
    destruct Hr as [listing done results _ _ _ Hf].
    induction Hf as [|url r' done results Hfetched _ IHf];
      [by apply elem_of_nil in Hin|].
    apply elem_of_cons in Hin as [-> |Hin]; [by exists url | by apply IHf].
Qed.

Lemma run_all_links_observed log st :
  run cfg web log st → all_links st ⊆ observed log.
Proof.
  induction 1 as [|log st batch results st' _ IH Hr]; [done|].
  destruct (round_inv _ _ _ _ _ _ Hr) as (listing & _ & _ & _ & _ & _ & ->).
  unfold loop_body.
  match goal with
  | |- context [report cfg ?X] => destruct (report_sets cfg X) as (_ & _ & -> & _)
  end.
  etrans; [apply all_links_merge_results_from|].
  unfold observed in *. simpl. rewrite map_app, union_list_app_L.
  revert IH. clear. intros IH. set_pointwise.
Qed.

Lemma run_all_links_kept log st link :
  run cfg web log st → link ∈ all_links st →
  link ∈ observed log ∧ contains "#" link = false ∧
  ∃ href, is_valid_link href = Return true ∧ link = split_head "#" href.
Proof.
  intros Hrun Hin.
  pose proof (run_all_links_observed log st Hrun link Hin) as Hobs.
  split; [done|]. unfold observed in Hobs.
  apply elem_of_union_list in Hobs as (X & HX & Hlink).
  apply list_elem_of_fmap in HX as (r & -> & Hr).
  destruct (run_log_fetched log st Hrun r Hr) as (url & pw & _ & Hp).
  destruct (process_page_kept pw url r Hp link Hlink)
    as (hrefs & _ & href & _ & Hv & ->).
  split; [apply split_head_no_sep | by exists href].
Qed.

Lemma run_last_check log st :
  run cfg web log st →
  last_check st ≤ size (visited st) ∧
  (0 < check_interval cfg → size (visited st) < last_check st + check_interval cfg).
Proof.
  induction 1 as [|log st batch results st' _ [IH _] Hr].
  - cbn [init visited last_check]. rewrite size_empty. lia.
  - destruct (round_inv _ _ _ _ _ _ Hr) as (listing & _ & _ & _ & _ & _ & ->).
    pose proof (loop_body_visited cfg listing results st) as Hv.
    unfold loop_body in *.
    set (st1 := mkState (to_visit st ∖ list_to_set (current_batch cfg listing))
                  (visited st) (all_links st) (failed_urls st) (last_check st)) in *.
    pose proof (last_check_merge_results results st1) as Hl.
    assert (size (visited st) ≤ size (visited (merge_results st1 results))) as Hgrow.
    { rewrite visited_merge_results. apply subseteq_size. subst st1. simpl.
      set_solver. }
    subst st1. simpl in Hl.
    unfold report. destruct (_ <=? _)%Z eqn:Hcmp; simpl.
    + lia.
    + apply Z.leb_gt in Hcmp. rewrite Hl in *. lia.
Qed.

(** X9: [visited] is exactly the set of the URLs that have been handed
    to [process_page]; it has no more elements than there were calls. *)
Theorem visited_is_dispatched (log : Log) (st : State) :
  run cfg web log st →
  visited st = list_to_set (dispatched log) ∧
  size (visited st) ≤ length (dispatched log).
Proof.
  intros ->%run_visited_dispatched. split; [done|].
  induction (dispatched log) as [|u l IH].
  - by rewrite list_to_set_nil, size_empty.
  - rewrite list_to_set_cons, size_union_alt, size_singleton. cbn [length].
    assert (size (list_to_set (C:=gset string) l ∖ {[u]})
            ≤ size (list_to_set (C:=gset string) l))
      by (apply subseteq_size; set_solver).
    lia.
Qed.

(** X10: no URL is handed to [process_page] more than twice.  A URL that
    is in [to_visit] has been fetched at most once, and exactly once when
    it is in [visited] as well. *)
Theorem url_fetched_at_most_twice (log : Log) (st : State) (url : string) :
  run cfg web log st →
  times url (dispatched log) ≤ 2 ∧
  (url ∈ to_visit st → url ∈ visited st → times url (dispatched log) = 1) ∧
  (url ∈ to_visit st → times url (dispatched log) ≤ 1).
Proof.
  intros Hrun. destruct (run_dispatch_count log st Hrun url) as (H0 & H1 & H2).
  destruct (decide (url ∈ visited st)) as [Hv|Hv].
  - specialize (H2 Hv). split_and!; [lia | by intros; apply H1 |].
    intros Ht. rewrite (H1 Hv Ht). lia.
  - rewrite (H0 Hv). split_and!; [lia | done | lia].
Qed.

(** X11: at the head of every iteration, and when the loop has stopped,
    the frontier and [visited] together are [all_links] and the seed URL.
    When the frontier is empty, [visited] is [all_links] plus the seed,
    one URL more than [all_links], and every link a fetch has returned has
    been fetched. *)
Theorem frontier_and_visited_account (log : Log) (st : State) :
  run cfg web log st →
  to_visit st ∪ visited st = all_links st ∪ {[ start_url cfg ]} ∧
  (to_visit st = ∅ →
   visited st = all_links st ∪ {[ start_url cfg ]} ∧
   size (visited st) = S (size (all_links st)) ∧
   observed log ⊆ visited st).
Proof.
  intros Hrun.
  destruct (run_links_invariant cfg web log st Hrun) as (Hseed & _ & Hsub).
  pose proof (run_account log st Hrun) as Heq.
  split; [done|]. intros Hempty. rewrite Hempty, (left_id_L ∅ (∪)) in Heq.
  split_and!; [done | |].
  - rewrite Heq, size_union, size_singleton by set_solver. lia.
  - rewrite Heq. revert Hsub. clear. intros Hsub. set_pointwise.
Qed.

(** X12: every URL in [all_links] is a link some call of [process_page]
    has returned: an href the filter accepted, cut at its first [#], with
    no [#] in it. *)
Theorem all_links_pass_filter (log : Log) (st : State) (link : string) :
  run cfg web log st →
  link ∈ all_links st →
  link ∈ observed log ∧
  contains "#" link = false ∧
  ∃ href, is_valid_link href = Return true ∧ link = split_head "#" href.
Proof. apply run_all_links_kept. Qed.

(** X13: [last_check] never exceeds the size of [visited], so the
    difference the loop computes is never negative; at the head of every
    iteration fewer than [CHECK_INTERVAL] URLs have been visited since the
    last progress report. *)
Theorem snapshot_never_overdue (log : Log) (st : State) :
  run cfg web log st →
  last_check st ≤ size (visited st) ∧
  (0 < check_interval cfg →
   size (visited st) < last_check st + check_interval cfg).
Proof. apply run_last_check. Qed.

(** X14: the batch of an iteration has no URL twice, and as many URLs as
    there are workers, or all of the frontier when that is less; every
    URL of the batch comes from the frontier and yields one result; the
    frontier URLs left out of the batch are still in the frontier after
    the iteration. *)
Theorem batch_is_slice_of_frontier st batch results st' :
  round cfg web st batch results st' →
  NoDup batch ∧
  length batch = workers cfg `min` size (to_visit st) ∧
  length results = length batch ∧
  (∀ url, url ∈ batch → url ∈ to_visit st) ∧
  (∀ url, url ∈ to_visit st → url ∉ batch → url ∈ to_visit st').
Proof.
  intros Hr. destruct (round_frontier _ _ _ _ Hr) as (Hnd & Hin & Hstay & _).
  destruct (round_inv _ _ _ _ _ _ Hr) as (listing & _ & [Hndl Hset] & -> & Hperm & _).
  split_and!; [done | | | done..].
  - unfold current_batch. rewrite length_take, <-Hset.
    by rewrite size_list_to_set.
  - by rewrite <-Hperm, length_map.
Qed.

(** X15: the order in which the results of a batch arrive decides only
    which URLs of that batch are put back into the frontier.  Two
    iterations from the same state on the same batch, whose results are
    the same up to their order, end with the same [visited], [all_links],
    [failed_urls] and [last_check], and their frontiers agree on every URL
    outside the batch. *)
Theorem completion_order_only_moves_batch_urls (log : Log) (st : State)
    (batch : list string) (results1 results2 : list Result) (st1 st2 : State) :
  run cfg web log st →
  round cfg web st batch results1 st1 →
  round cfg web st batch results2 st2 →
  results1 ≡ₚ results2 →
  visited st1 = visited st2 ∧
  all_links st1 = all_links st2 ∧
  failed_urls st1 = failed_urls st2 ∧
  last_check st1 = last_check st2 ∧
  ∀ url, url ∉ batch → (url ∈ to_visit st1 ↔ url ∈ to_visit st2).
Proof.
  intros Hrun Hr1 Hr2 Hperm.
  destruct (round_sets _ _ _ _ Hr1) as (Hv1 & Hu1 & Hf1 & Hl1).
  destruct (round_sets _ _ _ _ Hr2) as (Hv2 & Hu2 & Hf2 & Hl2).
  rewrite (union_links_perm _ _ Hperm) in Hu1.
  assert (visited st1 = visited st2) as Hv by congruence.
  assert (to_visit st1 ∪ visited st1 = to_visit st2 ∪ visited st2) as Hu
    by congruence.
  split_and!.
  - done.
  - pose proof (run_round cfg web _ _ _ _ _ Hrun Hr1) as Hrun1.
    pose proof (run_round cfg web _ _ _ _ _ Hrun Hr2) as Hrun2.
    by rewrite (run_all_links_eq _ _ Hrun1), (run_all_links_eq _ _ Hrun2), Hu.
  - apply set_eq. intros url. rewrite Hf1, Hf2.
    split; intros [?|(r & Hin & ?)]; [by left | right | by left | right];
      exists r; (split; [|done]); [by rewrite <-Hperm | by rewrite Hperm].
  - rewrite Hl1, Hl2. by rewrite Hv.
  - intros url Hb.
    assert (url ∈ to_visit st1 ∪ visited st1 ↔ url ∈ to_visit st2 ∪ visited st2)
      as Hx by (by rewrite Hu).
    destruct (round_frontier _ _ _ _ Hr1) as (_ & _ & Hs1 & Hn1).
    destruct (round_frontier _ _ _ _ Hr2) as (_ & _ & Hs2 & Hn2).
    specialize (Hs1 url). specialize (Hs2 url).
    specialize (Hn1 url). specialize (Hn2 url).
    assert (url ∈ visited st1 ↔ url ∈ visited st) as Hvis1.
    { rewrite Hv1, elem_of_union, elem_of_list_to_set. tauto. }
    assert (url ∈ visited st2 ↔ url ∈ visited st) as Hvis2.
    { rewrite Hv2, elem_of_union, elem_of_list_to_set. tauto. }
    rewrite !elem_of_union in Hx. tauto.
Qed.

(** X16: the two files.  [recursive_links.json] and [failed_urls.json]
    list no URL twice; the seed URL is not in [recursive_links.json];
    every entry of it is an href the filter accepted, cut at its first
    [#]; every entry of [failed_urls.json] is the seed URL or an entry of
    [recursive_links.json]. *)
Theorem written_files (out : Output) :
  crawl_all_parallel cfg web out →
  NoDup (recursive_links_json out) ∧ NoDup (failed_urls_json out) ∧
  (start_url cfg ∉ recursive_links_json out) ∧
  (∀ link, link ∈ recursive_links_json out →
     contains "#" link = false ∧
     ∃ href, is_valid_link href = Return true ∧ link = split_head "#" href) ∧
  (∀ url, url ∈ failed_urls_json out →
     url = start_url cfg ∨ url ∈ recursive_links_json out).
Proof.
  intros (log & st & Hrun & _ & [Hnd1 Hall] & [Hnd2 Hfailed]).
  destruct (run_links_invariant cfg web _ _ Hrun) as (Hseed & _ & Hsub).
  split_and!; [done | done | | |].
  - by rewrite <-(elem_of_list_to_set (C:=gset string)), Hall.
  - intros link Hin.
    rewrite <-(elem_of_list_to_set (C:=gset string)), Hall in Hin.
    by destruct (run_all_links_kept log st link Hrun Hin) as (_ & ? & ?).
  - intros url Hin.
    rewrite <-(elem_of_list_to_set (C:=gset string)), Hfailed in Hin.
    apply (run_failed_visited cfg web _ _ Hrun) in Hin.
    assert (url ∈ all_links st ∪ {[start_url cfg]})
      as [?| ->%elem_of_singleton]%elem_of_union
      by (apply Hsub; set_solver); [right | by left].
    by rewrite <-(elem_of_list_to_set (C:=gset string)), Hall.
Qed.

(** X17: the crawl stays in its domain.  Every URL handed to
    [process_page] is the seed URL or comes from an href that the filter
    accepted: [urlparse] found in it a host that contains [BASE_DOMAIN]
    and no scheme other than [http] and [https]. *)
Theorem only_accepted_urls_are_fetched (log : Log) (st : State) (url : string) :
  run cfg web log st →
  url ∈ dispatched log →
  url = start_url cfg ∨
  ∃ href parsed,
    url = split_head "#" href ∧
    is_valid_link href = Return true ∧
    urlparse (str_lower (str_strip href)) = Return parsed ∧
    contains BASE_DOMAIN (netloc parsed) = true ∧
    scheme parsed ∈ [""; "http"; "https"].
Proof.
  intros Hrun Hin.
  rewrite <-(elem_of_list_to_set (C:=gset string)),
    <-(run_visited_dispatched log st Hrun) in Hin.
  assert (url ∈ all_links st ∪ {[ start_url cfg ]})
    as [Hall| ->%elem_of_singleton]%elem_of_union; [| |by left].
  { rewrite <-(run_account log st Hrun). set_solver. }
  right.
  destruct (run_all_links_kept log st url Hrun Hall) as (_ & _ & href & Hv & ->).
  destruct (is_valid_link_true href Hv) as (_ & parsed & Hp & Hb & Hs & _).
  by exists href, parsed.
Qed.

End loop_facts.

(** ** One worker *)

Section single_worker.
Context {lib : PyLib} (cfg : Config) (web : Web).
Hypothesis one_worker : workers cfg = 1.

Lemma single_worker_round st batch results st' :
  round cfg web st batch results st' →
  ∃ url r, batch = [url] ∧ results = [r] ∧ res_url r = url ∧
           url ∈ to_visit st ∧
           to_visit st' = to_visit (merge_result
             (mkState (to_visit st ∖ {[ url ]}) (visited st) (all_links st)
                (failed_urls st) (last_check st)) r).
Proof.
  intros Hr.
  destruct (round_frontier cfg web _ _ _ _ Hr) as (_ & Hin & _ & _).
  destruct (round_inv _ _ _ _ _ _ Hr) as (listing & Hg & [_ Hset] & Hb & _).
  apply loop_guard_true in Hg as [Hne _].
  destruct listing as [|url listing]; [by rewrite <-Hset in Hne|].
  unfold current_batch in Hb. rewrite one_worker in Hb. simpl in Hb.
  rewrite take_0 in Hb. subst batch.
  destruct (round_one_url cfg web _ _ _ _ Hr)
    as (listing' & r & _ & Hb' & -> & Hf & ->).
  exists url, r. split_and!; [done..| | |].
  - by destruct (fetched_shape web url r Hf).
  - apply Hin. by left.
  - by destruct (loop_body_one cfg listing' url r st Hb') as (-> & _).
Qed.

Lemma single_worker_disjoint log st :
  run cfg web log st → to_visit st ∩ visited st = ∅.
Proof.
  induction 1 as [|log st batch results st' _ IH Hr].
  - unfold init. simpl. set_solver.
  - pose proof (round_visited _ _ _ _ _ _ Hr) as Hv.
    destruct (single_worker_round _ _ _ _ Hr)
      as (url & [[url' links] err] & -> & -> & Hu & Hin & Ht).
    unfold res_url in Hu. simpl in Hu. subst url'.
    rewrite Ht, Hv. unfold merge_result.
    destruct (truthy err); simpl; revert IH; clear; intros IH; set_pointwise.
Qed.

(** X18: with a single worker the crawl behaves as the design document
    says.  No URL is ever in the frontier and in [visited] at once, no URL
    is fetched twice, every iteration visits exactly one new URL, and a
    loop that stops with URLs left in the frontier has visited exactly
    [MAX_PAGES] of them. *)
Theorem single_worker_is_exact (log : Log) (st : State) :
  run cfg web log st →
  to_visit st ∩ visited st = ∅ ∧
  NoDup (dispatched log) ∧
  size (visited st) = length log ∧
  (loop_guard cfg st = false → to_visit st ≠ ∅ →
   size (visited st) = max_pages cfg).
Proof.
  intros Hrun.
  assert (NoDup (dispatched log) ∧ size (visited st) = length log) as [Hnd Hsize].
  { induction Hrun as [|log st batch results st' Hrun [IHnd IHsize] Hr].
    - split; [constructor | done].
    - pose proof (round_visited _ _ _ _ _ _ Hr) as Hv.
      pose proof (single_worker_disjoint _ _ Hrun) as Hdis.
      pose proof (run_visited_dispatched _ _ _ _ Hrun) as Hvd.
      destruct (single_worker_round _ _ _ _ Hr)
        as (url & r & -> & -> & _ & Hin & _).
      assert (url ∉ visited st) as Hnew by set_solver.
      split.
      + unfold dispatched. simpl. apply NoDup_cons. split; [|done].
        fold (dispatched log). rewrite Hvd in Hnew.
        by rewrite elem_of_list_to_set in Hnew.
      + rewrite Hv. cbn [length].
        assert (list_to_set [url] =@{gset string} {[ url ]}) as -> by set_solver.
        rewrite size_union by set_solver. rewrite size_singleton. lia. }
  split_and!; [by eapply single_worker_disjoint | done..|].
  intros [?|Hcap]%loop_guard_false Hne; [done|].
  assert (0 < workers cfg) as Hw by lia.
  pose proof (run_visited_bound cfg web log st Hw Hrun). lia.
Qed.

End single_worker.

(** ** A seed that cannot be fetched *)

Section dead_seed.
Context {lib : PyLib} (cfg : Config) (web : Web).
Hypothesis some_worker : 0 < workers cfg.
Hypothesis seed_fails :
  ∀ r, fetched web (start_url cfg) r → truthy (res_error r) = true.

Lemma dead_seed_state log st :
  run cfg web log st → log ≠ [] →
  to_visit st = ∅ ∧ visited st = {[ start_url cfg ]} ∧
  all_links st = ∅ ∧ failed_urls st = {[ start_url cfg ]}.
Proof.
  induction 1 as [|log st batch results st' Hrun IH Hr]; [done|]. intros _.
  destruct log as [|entry log].
  - inversion Hrun; subst. clear IH Hrun.
    destruct (round_inv _ _ _ _ _ _ Hr) as (listing & _ & Hl & Hb & _).
    apply listing_of_singleton in Hl as ->.
    unfold current_batch in Hb. destruct (workers cfg) as [|w]; [lia|].
    simpl in Hb. rewrite take_nil in Hb. subst batch.
    destruct (round_one_url cfg web _ _ _ _ Hr)
      as (listing' & [[url links] err] & _ & Hb' & -> & Hf & ->).
    pose proof (seed_fails _ Hf) as Herr.
    destruct (fetched_shape web _ _ Hf) as [Hurl _].
    unfold res_url, res_error in *. simpl in *. subst url.
    destruct (loop_body_one cfg listing' (start_url cfg)
                (start_url cfg, links, err) (init cfg) Hb')
      as (-> & -> & -> & ->).
    unfold merge_result. rewrite Herr. simpl. set_solver.
  - destruct IH as (Hempty & _); [done|].
    destruct (round_inv _ _ _ _ _ _ Hr) as (_ & Hg & _).
    by apply loop_guard_true in Hg as [? _].
Qed.

Lemma dead_seed_first_round (r : Result) :
  0 < max_pages cfg →
  fetched web (start_url cfg) r →
  round cfg web (init cfg) [start_url cfg] [r]
        (loop_body cfg [start_url cfg] [r] (init cfg)).
Proof.
  intros Hcap Hr.
  assert (current_batch cfg [start_url cfg] = [start_url cfg]) as Hb.
  { unfold current_batch. destruct (workers cfg) as [|w]; [lia|].
    simpl. by rewrite take_nil. }
  rewrite <-Hb at 1.
  apply (round_intro cfg web (init cfg) [start_url cfg] [start_url cfg]).
  - apply loop_guard_true. cbn [init to_visit visited]. split.
    + apply non_empty_singleton_L.
    + by rewrite size_empty.
  - split; [apply NoDup_singleton | apply (right_id_L ∅ (∪))].
  - by rewrite Hb.
  - by repeat constructor.
Qed.

(** X19: when every fetch of the seed URL fails with a message, the crawl
    ends after its first iteration.  The loop condition holds at the start
    and is false after one iteration, so no run has a second one; after
    that iteration the frontier and [all_links] are empty and [visited]
    and [failed_urls] hold the seed URL alone.  A call that completes
    writes the empty list to [recursive_links.json] and the seed URL
    alone to [failed_urls.json]; and the call does complete when the
    fetch of the seed URL returns. *)
Theorem dead_seed_ends_crawl :
  0 < max_pages cfg →
  (∀ log st,
     run cfg web log st →
     length log ≤ 1 ∧
     (loop_guard cfg st = false ↔ length log = 1) ∧
     (length log = 1 →
      to_visit st = ∅ ∧ visited st = {[ start_url cfg ]} ∧
      all_links st = ∅ ∧ failed_urls st = {[ start_url cfg ]})) ∧
  (∀ out,
     crawl_all_parallel cfg web out →
     recursive_links_json out = [] ∧ failed_urls_json out = [start_url cfg]) ∧
  ((∃ r, fetched web (start_url cfg) r) → ∃ out, crawl_all_parallel cfg web out).
Proof.
  intros Hcap.
  assert (loop_guard cfg (init cfg) = true) as Hinit.
  { apply loop_guard_true. cbn [init to_visit visited]. split.
    - apply non_empty_singleton_L.
    - by rewrite size_empty. }
  assert (∀ log st, run cfg web log st → log ≠ [] →
            loop_guard cfg st = false) as Hstopped.
  { intros log st Hrun Hne.
    destruct (dead_seed_state _ _ Hrun Hne) as (Hempty & _).
    apply loop_guard_false. by left. }
  assert (∀ log st, run cfg web log st → length log ≤ 1) as Hshort.
  { intros log st Hrun. destruct Hrun as [|log st batch results st' Hrun Hr].
    - simpl. lia.
    - destruct log as [|entry log]; [simpl; lia|].
      pose proof (Hstopped _ _ Hrun) as Hstop.
      destruct (round_inv _ _ _ _ _ _ Hr) as (_ & Hg & _).
      rewrite Hstop in Hg; [done|done]. }
  split_and!.
  - intros log st Hrun. split_and!; [by eapply Hshort| |].
    + destruct log as [|entry log].
      * inversion Hrun; subst. rewrite Hinit. by split.
      * pose proof (Hshort _ _ Hrun) as Hlen.
        rewrite (Hstopped _ _ Hrun) by done. simpl in *. split; [lia|done].
    + intros Hlen. apply (dead_seed_state _ _ Hrun).
      intros ->. by simpl in Hlen.
  - intros out (log & st & Hrun & Hstop & [_ Hall] & Hfailed).
    destruct log as [|entry log].
    + inversion Hrun; subst. congruence.
    + destruct (dead_seed_state _ _ Hrun) as (_ & _ & Ha & Hf); [done|].
      rewrite Ha in Hall. rewrite Hf in Hfailed. split.
      * destruct (recursive_links_json out) as [|x l]; [done|].
        assert (x ∈ (∅ : gset string)) as []%not_elem_of_empty.
        rewrite <-Hall. set_solver.
      * by apply listing_of_singleton.
  - intros [r Hr].
    pose proof (dead_seed_first_round r Hcap Hr) as Hround.
    pose proof (run_round cfg web _ _ _ _ _ (run_start cfg web) Hround) as Hrun.
    exists (mkOutput
              (elements (all_links (loop_body cfg [start_url cfg] [r] (init cfg))))
              (elements (failed_urls (loop_body cfg [start_url cfg] [r] (init cfg))))).
    exists [([start_url cfg], [r])], (loop_body cfg [start_url cfg] [r] (init cfg)).
    split; [exact Hrun|]. split; [by apply (Hstopped _ _ Hrun)|].
    cbn [recursive_links_json failed_urls_json].
    split; (split; [apply NoDup_elements | apply list_to_set_elements_L]).
Qed.

End dead_seed.

(** ** The runs the statements above are applied to *)

Section more_runs.

Ltac site_round cfg pages st listing done :=
  apply (round_site_intro cfg pages st listing done);
  [ vm_compute; reflexivity
  | vm_compute; reflexivity
  | vm_compute; reflexivity
  | first [ reflexivity | apply perm_swap ]
  | vm_compute; reflexivity
  | vm_compute; reflexivity ].

Lemma default_run1 :
  run default_config Scenario.web [([Scenario.S], [Scenario.rS])] Scenario.st1.
Proof. econstructor; [apply run_start | apply default_round1]. Qed.

Lemma single_round1 :
  round Single.config Scenario.web (init Single.config)
        [Scenario.S] [Scenario.rS] Scenario.st1.
Proof.
  site_round Single.config Scenario.pages (init Single.config)
    [Scenario.S] [Scenario.S].
Qed.

Lemma single_round2 :
  round Single.config Scenario.web Scenario.st1
        [Scenario.A] [Scenario.rA] Single.st2.
Proof.
  site_round Single.config Scenario.pages Scenario.st1
    [Scenario.A; Scenario.B] [Scenario.A].
Qed.

Lemma single_run : run Single.config Scenario.web Single.log Single.st2.
Proof.
  repeat econstructor; [apply single_round1 | apply single_round2].
Qed.

Lemma offline_round :
  round default_config Offline.web (init default_config)
        [START_URL] [Offline.r] Offline.final.
Proof.
  site_round default_config Offline.pages (init default_config)
    [START_URL] [START_URL].
Qed.

Lemma offline_run : run default_config Offline.web Offline.log Offline.final.
Proof. econstructor; [apply run_start | apply offline_round]. Qed.

Lemma offline_seed_fails (r : Result) :
  fetched Offline.web (start_url default_config) r →
  truthy (res_error r) = true.
Proof.
  intros (pw & -> & Hp). vm_compute in Hp. by injection Hp as <-.
Qed.

Lemma offline_crawl : crawl_all_parallel default_config Offline.web Offline.out.
Proof.
  exists Offline.log, Offline.final.
  split_and!; [apply offline_run | vm_compute; reflexivity | |].
  - split; [constructor | done].
  - split; [apply NoDup_singleton | apply (right_id_L ∅ (∪))].
Qed.

Lemma scenario_crawl :
  crawl_all_parallel default_config Scenario.web scenario_files.
Proof.
  exists Scenario.log3, Scenario.final.
  split_and!; [apply default_run3 | vm_compute; reflexivity | |].
  - split; [apply (bool_decide_unpack _); by vm_compute|].
    apply set_eq. intros x. unfold scenario_files, Scenario.final. simpl.
    set_unfold. tauto.
  - split; [apply NoDup_singleton | apply (right_id_L ∅ (∪))].
Qed.

End more_runs.

Lemma visited_is_dispatched_witness :
  run default_config Scenario.web Scenario.log3 Scenario.final ∧
  visited Scenario.final = list_to_set (dispatched Scenario.log3) ∧
  size (visited Scenario.final) ≤ length (dispatched Scenario.log3).
Proof.
  split; [exact default_run3 |].
  exact (visited_is_dispatched default_config Scenario.web _ _ default_run3).
Defined.

Lemma url_fetched_at_most_twice_witness :
  run default_config Scenario.web Scenario.log3 Scenario.final ∧
  times Scenario.B (dispatched Scenario.log3) = 2 ∧
  times Scenario.B (dispatched Scenario.log3) ≤ 2.
Proof.
  split_and!; [exact default_run3 | vm_compute; reflexivity |].
  exact (proj1 (url_fetched_at_most_twice default_config Scenario.web _ _
                  Scenario.B default_run3)).
Defined.

Lemma frontier_and_visited_account_witness :
  run default_config Scenario.web Scenario.log3 Scenario.final ∧
  to_visit Scenario.final = ∅ ∧
  visited Scenario.final = all_links Scenario.final ∪ {[ START_URL ]} ∧
  size (visited Scenario.final) = S (size (all_links Scenario.final)) ∧
  observed Scenario.log3 ⊆ visited Scenario.final.
Proof.
  split_and!; [exact default_run3 | reflexivity |..];
    apply (proj2 (frontier_and_visited_account default_config Scenario.web _ _
                    default_run3) eq_refl).
Defined.

Lemma all_links_pass_filter_witness :
  run default_config Scenario.web Scenario.log3 Scenario.final ∧
  Scenario.C ∈ all_links Scenario.final ∧
  Scenario.C ∈ observed Scenario.log3 ∧
  contains "#" Scenario.C = false ∧
  ∃ href, is_valid_link href = Return true ∧ Scenario.C = split_head "#" href.
Proof.
  assert (Scenario.C ∈ all_links Scenario.final) as Hin
    by (apply (bool_decide_unpack _); vm_compute; exact I).
  split_and!; [exact default_run3 | exact Hin |..];
    apply (all_links_pass_filter default_config Scenario.web _ _ Scenario.C
             default_run3 Hin).
Defined.

Lemma snapshot_never_overdue_witness :
  run Single.config Scenario.web Single.log Single.st2 ∧
  0 < check_interval Single.config ∧
  last_check Single.st2 ≤ size (visited Single.st2) ∧
  size (visited Single.st2)
    < last_check Single.st2 + check_interval Single.config.
Proof.
  assert (0 < check_interval Single.config) as Hci by (vm_compute; lia).
  destruct (snapshot_never_overdue Single.config Scenario.web _ _ single_run)
    as [Hle Hlt].
  split_and!; [exact single_run | exact Hci | exact Hle | exact (Hlt Hci)].
Defined.

Lemma batch_is_slice_of_frontier_witness :
  round default_config Scenario.web Scenario.st1
        [Scenario.A; Scenario.B] [Scenario.rA; Scenario.rB] Scenario.st2 ∧
  NoDup [Scenario.A; Scenario.B] ∧
  length [Scenario.A; Scenario.B]
    = CONCURRENT_WORKERS `min` size (to_visit Scenario.st1).
Proof.
  destruct (batch_is_slice_of_frontier default_config Scenario.web _ _ _ _
              default_round2) as (Hnd & Hlen & _).
  split_and!; [exact default_round2 | exact Hnd | exact Hlen].
Defined.

Lemma completion_order_only_moves_batch_urls_witness :
  run default_config Scenario.web [([Scenario.S], [Scenario.rS])] Scenario.st1 ∧
  round default_config Scenario.web Scenario.st1
        [Scenario.A; Scenario.B] [Scenario.rA; Scenario.rB] Scenario.st2 ∧
  round default_config Scenario.web Scenario.st1
        [Scenario.A; Scenario.B] [Scenario.rB; Scenario.rA] Scenario.st2' ∧
  [Scenario.rA; Scenario.rB] ≡ₚ [Scenario.rB; Scenario.rA] ∧
  visited Scenario.st2 = visited Scenario.st2' ∧
  all_links Scenario.st2 = all_links Scenario.st2' ∧
  failed_urls Scenario.st2 = failed_urls Scenario.st2' ∧
  (Scenario.C ∈ to_visit Scenario.st2 ↔ Scenario.C ∈ to_visit Scenario.st2').
Proof.
  assert ([Scenario.rA; Scenario.rB] ≡ₚ [Scenario.rB; Scenario.rA]) as Hperm
    by apply perm_swap.
  assert (Scenario.C ∉ [Scenario.A; Scenario.B]) as Hout
    by (apply (bool_decide_unpack _); vm_compute; exact I).
  destruct (completion_order_only_moves_batch_urls default_config Scenario.web
              _ _ _ _ _ _ _ default_run1 default_round2
              default_round2_other_order Hperm)
    as (Hv & Ha & Hf & _ & Ht).
  split_and!; [exact default_run1 | exact default_round2
              | exact default_round2_other_order | exact Hperm
              | exact Hv | exact Ha | exact Hf | exact (Ht _ Hout)].
Defined.

Lemma written_files_witness :
  crawl_all_parallel default_config Scenario.web scenario_files ∧
  NoDup (recursive_links_json scenario_files) ∧
  (START_URL ∉ recursive_links_json scenario_files) ∧
  (∀ url, url ∈ failed_urls_json scenario_files →
     url = START_URL ∨ url ∈ recursive_links_json scenario_files).
Proof.
  destruct (written_files default_config Scenario.web scenario_files
              scenario_crawl) as (Hnd & _ & Hseed & _ & Hfailed).
  split_and!; [exact scenario_crawl | exact Hnd | exact Hseed | exact Hfailed].
Defined.

Lemma single_worker_is_exact_witness :
  workers Single.config = 1 ∧
  run Single.config Scenario.web Single.log Single.st2 ∧
  loop_guard Single.config Single.st2 = false ∧
  to_visit Single.st2 ≠ ∅ ∧
  to_visit Single.st2 ∩ visited Single.st2 = ∅ ∧
  NoDup (dispatched Single.log) ∧
  size (visited Single.st2) = max_pages Single.config.
Proof.
  assert (workers Single.config = 1) as Hw by reflexivity.
  assert (loop_guard Single.config Single.st2 = false) as Hstop
    by (vm_compute; reflexivity).
  assert (to_visit Single.st2 ≠ ∅) as Hne
    by (apply (bool_decide_unpack _); vm_compute; exact I).
  destruct (single_worker_is_exact Single.config Scenario.web Hw _ _ single_run)
    as (Hdis & Hnd & _ & Hcap).
  split_and!; [exact Hw | exact single_run | exact Hstop | exact Hne
              | exact Hdis | exact Hnd | exact (Hcap Hstop Hne)].
Defined.

Lemma offline_seed_fetched : fetched Offline.web START_URL Offline.r.
Proof. exists (Offline.pages START_URL). by split. Qed.

Lemma dead_seed_ends_crawl_witness :
  0 < CONCURRENT_WORKERS ∧ 0 < MAX_PAGES ∧
  (∀ r, fetched Offline.web START_URL r → truthy (res_error r) = true) ∧
  (∃ out, crawl_all_parallel default_config Offline.web out) ∧
  length Offline.log ≤ 1 ∧
  (loop_guard default_config Offline.final = false ↔ length Offline.log = 1) ∧
  recursive_links_json Offline.out = [] ∧
  failed_urls_json Offline.out = [START_URL].
Proof.
  assert (0 < workers default_config) as Hw by (vm_compute; lia).
  assert (0 < max_pages default_config) as Hcap.
  { change (max_pages default_config) with MAX_PAGES. unfold MAX_PAGES. lia. }
  destruct (dead_seed_ends_crawl default_config Offline.web Hw
              offline_seed_fails Hcap) as (Hruns & Hfiles & Hdone).
  destruct (Hruns _ _ offline_run) as (Hlen & Hstop & _).
  destruct (Hfiles _ offline_crawl) as [Hlinks Hfailed].
  split_and!; [exact Hw | exact Hcap | exact offline_seed_fails
              | exact (Hdone (ex_intro _ _ offline_seed_fetched))
              | exact Hlen | exact Hstop | exact Hlinks | exact Hfailed].
Defined.

Lemma only_accepted_urls_are_fetched_witness :
  run default_config Scenario.web Scenario.log3 Scenario.final ∧
  Scenario.C ∈ dispatched Scenario.log3 ∧
  (Scenario.C = START_URL ∨
   ∃ href parsed,
     Scenario.C = split_head "#" href ∧
     is_valid_link href = Return true ∧
     urlparse (str_lower (str_strip href)) = Return parsed ∧
     contains BASE_DOMAIN (netloc parsed) = true ∧
     scheme parsed ∈ [""; "http"; "https"]).
Proof.
  assert (Scenario.C ∈ dispatched Scenario.log3) as Hin
    by (apply (bool_decide_unpack _); vm_compute; exact I).
  split_and!; [exact default_run3 | exact Hin |].
  exact (only_accepted_urls_are_fetched default_config Scenario.web _ _
           Scenario.C default_run3 Hin).
Defined.
